(** * Trainers of lmj.tnn: SGD, HF and FORCE

    A shallow embedding of [lmj/tnn/trainer.py] and the properties its
    specification states about it.

    The tensor library (theano, numpy) is external to the file: its arithmetic
    is an interface ([Arith]), its symbolic gradient and its column mean are
    section variables, and a compiled function is a record holding its output
    expressions and its dictionary of update rules.  Shared variables live in
    a store; a call of a compiled function evaluates every output and every
    update expression on the store it finds, then writes all updates at once. *)

From Stdlib Require Import ZArith QArith Qcanon.
From Stdlib Require Import Floats.SpecFloat.
From stdpp Require Import gmap strings list fin_maps.

Local Open Scope string_scope.
Local Open Scope list_scope.
Local Open Scope Z_scope.

(** ** The arithmetic of the tensor library

    Nothing is assumed of the operations: they stand for whatever the dtype
    of the tensors computes.  [of_int] is the cast of a Python integer,
    [float_0_1] the literal [0.1].  The step counter of SGD is a float32
    whatever the other tensors are; what that asks of [of_int] and [fadd] is
    stated where the counter is counted ([Float32Counter]). *)

Class Arith (F : Type) := {
  of_int : Z → F;
  float_0_1 : F;
  fadd : F → F → F;
  fsub : F → F → F;
  fmul : F → F → F;
  fdiv : F → F → F;
  fpow : F → F → F
}.

(** Rational numbers in canonical form: an exact arithmetic to run the
    trainers on.  The exponent of [fpow] is the step counter, a natural
    number whenever it is used. *)

Definition Qc_pow (x t : Qc) : Qc :=
  match Qnum (this t), Qden (this t) with
  | Zpos n, xH => Qcpower x (Pos.to_nat n)
  | _, _ => Q2Qc 1
  end.

#[export] Instance Qc_arith : Arith Qc := {
  of_int z := Q2Qc (inject_Z z);
  float_0_1 := Q2Qc (1 # 10);
  fadd := Qcplus;
  fsub := Qcminus;
  fmul := Qcmult;
  fdiv := Qcdiv;
  fpow := Qc_pow
}.

(** ** Shared variables

    [VParam n] is a parameter tensor owned by the network.  [VStep] is the
    counter [t] and [VHeading k] the accumulator that [SGD.__init__] creates
    in the [k]-th turn of its loop over [network.params]; both are fresh
    shared variables of the trainer. *)

Inductive var :=
  | VStep
  | VParam (n : nat)
  | VHeading (k : nat).

#[export] Instance var_eq_dec : EqDecision var.
Proof. solve_decision. Defined.

Definition var_encode (v : var) : unit + (nat + nat) :=
  match v with
  | VStep => inl tt
  | VParam n => inr (inl n)
  | VHeading k => inr (inr k)
  end.

Definition var_decode (s : unit + (nat + nat)) : var :=
  match s with
  | inl _ => VStep
  | inr (inl n) => VParam n
  | inr (inr k) => VHeading k
  end.

#[export] Instance var_countable : Countable var.
Proof.
  refine (inj_countable' var_encode var_decode _).
  by intros [].
Defined.

Inductive fname := FEval | FRate | FTrain.

Inductive exn :=
  | NotImplementedError
  | AttributeError (attr : string)
  | KeyError (key : string)
  | NameError (name : string)
  | ZeroDivisionError
  | OverflowError
  | IndexError
  | ImportError
  | IOError
  | TypeError
  | IllTyped (key : string).

Inductive result (A : Type) :=
  | Ok (a : A)
  | Raise (e : exn).
Arguments Ok {A} a.
Arguments Raise {A} e.

Section Trainers.

Context {F : Type} `{Arith F}.

(** A tensor is the list of its entries; a minibatch is a tuple of tensors and
    a dataset an ordered sequence of minibatches. *)

Local Abbreviation tensor := (list F) (only parsing).
Local Abbreviation input := (list (list F)) (only parsing).
Local Abbreviation dataset := (list (list (list F))) (only parsing).

Definition tadd (a b : tensor) : tensor := zip_with fadd a b.
Definition tsub (a b : tensor) : tensor := zip_with fsub a b.
Definition scale (c : F) (a : tensor) : tensor := fmap (fmul c) a.
Definition zeros_like (a : tensor) : tensor := fmap (λ _, of_int 0) a.

(** Values of keyword options. *)

Inductive pyval :=
  | PInt (z : Z)
  | PFloat (x : F)
  | PData (d : dataset).

Local Abbreviation kwargs := (gmap string pyval) (only parsing).
Local Abbreviation store := (gmap var (list F)) (only parsing).

(** ** The world the trainers run in

    The shared variables, the trace of what was called and logged, and the
    [hf] module as found on the import path and at [HF.URL]. *)

Inductive logarg :=
  | LInt (z : Z)
  | LNum (x : F)
  | LArr (a : tensor).

(** The code object of the external optimizer's [train] method: the names of
    its arguments ([self] first) and of its other local variables.  Python
    lists both in [co_varnames], arguments first. *)

Record hf_module := {
  train_argnames : list string;
  train_localnames : list string
}.

Definition co_varnames (h : hf_module) : list string :=
  train_argnames h ++ train_localnames h.

Inductive event :=
  | ECall (f : fname) (x : input)
  | ELogInfo (fmt : string) (args : list logarg)
  | ELogError (fmt : string) (arg : string)
  | EUrlRetrieve (url path : string)
  | EOptTrain (train_set : dataset) (cg_set : pyval)
      (validation : option dataset) (kw : kwargs).

Record world := {
  shared : store;
  events : list event;
  hf_local : option hf_module;
  hf_remote : option hf_module
}.

Definition set_shared (st : store) (w : world) : world :=
  {| shared := st; events := events w;
     hf_local := hf_local w; hf_remote := hf_remote w |}.

Definition emit (e : event) (w : world) : world :=
  {| shared := shared w; events := events w ++ [e];
     hf_local := hf_local w; hf_remote := hf_remote w |}.

Definition set_hf_local (h : option hf_module) (w : world) : world :=
  {| shared := shared w; events := events w;
     hf_local := h; hf_remote := hf_remote w |}.

(** A computation reads and writes the world and returns or raises; what it
    did before raising stays done. *)

Definition M (A : Type) : Type := world → result A * world.

Definition ret {A} (a : A) : M A := λ w, (Ok a, w).
Definition raise {A} (e : exn) : M A := λ w, (Raise e, w).
Definition bind {A B} (c : M A) (k : A → M B) : M B :=
  λ w, match c w with
       | (Ok a, w') => k a w'
       | (Raise e, w') => (Raise e, w')
       end.

#[export] Instance M_ret : MRet M := @ret.
#[export] Instance M_bind : MBind M := λ A B k c, bind c k.

(** [try: c except: h], with a bare [except] clause. *)
Definition try_except {A} (c : M A) (h : M A) : M A :=
  λ w, match c w with
       | (Ok a, w') => (Ok a, w')
       | (Raise _, w') => h w'
       end.

(** [[f(i) for i in l]] and [for i in l: body]. *)
Fixpoint list_comp {A B} (f : A → M B) (l : list A) : M (list B) :=
  match l with
  | [] => mret []
  | a :: l => b ← f a; bs ← list_comp f l; mret (b :: bs)
  end.

Fixpoint for_each {A} (l : list A) (body : A → M unit) : M unit :=
  match l with
  | [] => mret tt
  | a :: l => body a ;; for_each l body
  end.

Definition log_event (e : event) : M unit := λ w, (Ok tt, emit e w).

(** ** Symbolic expressions and compiled functions *)

Local Abbreviation expr := (store → input → tensor) (only parsing).
Local Abbreviation sexpr := (store → input → F) (only parsing).

Definition scalar (a : tensor) : F := hd (of_int 0) a.

(** [theano.shared(value)] *)
Definition theano_shared (v : var) (value : tensor) : M var :=
  λ w, (Ok v, set_shared (<[v := value]> (shared w)) w).

(** [v.get_value()] *)
Definition get_value (v : var) : M tensor :=
  λ w, (Ok (shared w !!! v), w).

(** [v.get_value(name=True)].  The method's keyword arguments are [borrow]
    and [return_internal_type]; neither changes the value returned.  Python
    refuses a call with any other keyword, with [TypeError], before the
    method's body runs. *)
Definition get_value_keywords : list string :=
  ["borrow"; "return_internal_type"].

Definition get_value_kw (v : var) (name : string) : M tensor :=
  if bool_decide (name ∈ get_value_keywords)
  then get_value v
  else raise TypeError.

Record compiled := {
  fn_name : fname;
  fn_outputs : list sexpr;
  fn_updates : gmap var expr
}.

(** [theano.function(inputs, outputs, updates=updates)]; the inputs are the
    network's placeholders, bound at each call. *)
Definition theano_function (name : fname) (outputs : list sexpr)
    (updates : gmap var expr) : compiled :=
  {| fn_name := name; fn_outputs := outputs; fn_updates := updates |}.

Definition apply_updates (updates : gmap var expr) (st : store) (x : input)
    : store :=
  ((λ e : expr, e st x) <$> updates) ∪ st.

(** A call: outputs and new values are all computed on the store as found. *)
Definition call (f : compiled) (x : input) : M (list F) :=
  λ w, let st := shared w in
       (Ok ((λ e : sexpr, e st x) <$> fn_outputs f),
        emit (ECall (fn_name f) x)
          (set_shared (apply_updates (fn_updates f) st x) w)).

(** Modelled from the spec: the network contract ([network.J],
    [network.params], [network.monitors], [network.weights]), whose class is
    not among the sources.  Parameters are named by the index of their shared
    variable; [network.inputs] are the placeholders a call binds. *)

Record network := {
  net_J : kwargs → sexpr;
  net_params : list nat;
  net_monitors : list sexpr;
  net_weights : var * var * var
}.

(** [TT.grad], [numpy.mean(_, axis=0)] and [sys.maxint]; [len] of an array,
    the size of its first axis, which its list of entries does not record. *)
Variable TTgrad : sexpr → var → expr.
Variable npmean : list (list F) → tensor.
Variable maxint : Z.
Variable array_len : tensor → nat.

(** ** Trainer *)

Class Trainer (T : Type) := {
  get_f_eval : T → option compiled;
  train : T → dataset → option dataset → M unit
}.

Definition getattr_f_eval {T} `{Trainer T} (self : T) : M compiled :=
  match get_f_eval self with
  | Some f => mret f
  | None => raise (AttributeError "f_eval")
  end.

Definition evaluate {T} `{Trainer T} (self : T) (test_set : dataset)
    : M (list (list F)) :=
  list_comp (λ i, f ← getattr_f_eval self; call f i) test_set.

(** The base class itself: [train] is not implemented and no evaluation
    function is ever set. *)
Inductive Trainer_base := Trainer_object.

#[export] Instance Trainer_base_trainer : Trainer Trainer_base := {
  get_f_eval _ := None;
  train _ _ _ := raise NotImplementedError
}.

(** ** Keyword options

    [kwargs.get(key, default)], read at the type the specification gives the
    option: an integer, or a number (an integer is cast).  A value of another
    type is outside this model and is refused with [IllTyped]. *)

Definition option_int (kw : kwargs) (key : string) (dflt : Z) : option Z :=
  match kw !! key with
  | None => Some dflt
  | Some (PInt z) => Some z
  | Some _ => None
  end.

Definition option_num (kw : kwargs) (key : string) (dflt : F) : option F :=
  match kw !! key with
  | None => Some dflt
  | Some (PInt z) => Some (of_int z)
  | Some (PFloat x) => Some x
  | Some _ => None
  end.

Definition typed {A} (key : string) (o : option A) : M A :=
  match o with
  | Some a => mret a
  | None => raise (IllTyped key)
  end.

Definition get_int (kw : kwargs) (key : string) (dflt : Z) : M Z :=
  typed key (option_int kw key dflt).

Definition get_num (kw : kwargs) (key : string) (dflt : F) : M F :=
  typed key (option_num kw key dflt).

(** ** SGD *)

Record SGD := {
  vf : Z;
  epochs : Z;
  f_eval : compiled;
  f_rate : compiled;
  f_train : compiled
}.

(** The effective rate [lr * (decay ** t)]. *)
Definition rate_expr (lr decay : F) : sexpr :=
  λ st _, fmul lr (fpow decay (scalar (st !!! VStep))).

(** The loop over [network.params]; [k] counts its turns. *)
Fixpoint SGD_param_loop (J : sexpr) (m lr decay : F) (k : nat)
    (params : list nat) (updates : gmap var expr) : M (gmap var expr) :=
  match params with
  | [] => mret updates
  | p :: params =>
      let param := VParam p in
      let grad := TTgrad J param in
      value ← get_value param;
      heading ← theano_shared (VHeading k) (zeros_like value);
      let updates :=
        <[param := λ st _, tadd (st !!! param) (st !!! heading)]> updates in
      let updates :=
        <[heading := λ st x,
            tsub (scale m (st !!! heading))
                 (scale (rate_expr lr decay st x) (grad st x))]> updates in
      SGD_param_loop J m lr decay (S k) params updates
  end.

Definition SGD_init (net : network) (kw : kwargs) : M SGD :=
  vf ← get_int kw "validate" 3;
  epochs ← get_int kw "epochs" maxint;
  decay ← get_num kw "decay" (of_int 1);
  m ← get_num kw "momentum" (of_int 0);
  lr ← get_num kw "learning_rate" float_0_1;
  let J := net_J net kw in
  t ← theano_shared VStep [of_int 0];
  let updates : gmap var expr :=
    {[ t := λ st _, [fadd (scalar (st !!! t)) (of_int 1)] ]} in
  updates ← SGD_param_loop J m lr decay 0 (net_params net) updates;
  let costs := J :: net_monitors net in
  mret {| vf := vf;
          epochs := epochs;
          f_eval := theano_function FEval costs ∅;
          f_rate := theano_function FRate [rate_expr lr decay] ∅;
          f_train := theano_function FTrain costs updates |}.

(** [xrange(n)]: a native integer is required. *)
Definition xrange (n : Z) : M (list Z) :=
  if bool_decide (- maxint - 1 ≤ n ≤ maxint)
  then mret (Z.of_nat <$> seq 0 (Z.to_nat n))
  else raise OverflowError.

(** [a % b] on integers: the remainder has the sign of [b]. *)
Definition py_mod (a b : Z) : M Z :=
  if bool_decide (b = 0) then raise ZeroDivisionError else mret (a `mod` b).

(** [l[0]] *)
Definition index0 (l : list F) : M F :=
  match l with
  | [] => raise IndexError
  | a :: _ => mret a
  end.

(** [valid_set is not None and self.vf > 0 and u % self.vf == 0] *)
Definition SGD_validates (self : SGD) (valid_set : option dataset) (u : Z)
    : M bool :=
  match valid_set with
  | None => mret false
  | Some _ =>
      if bool_decide (vf self > 0)
      then r ← py_mod u (vf self); mret (bool_decide (r = 0))
      else mret false
  end.

(** One turn of the loop of [SGD.train]. *)
Definition SGD_epoch (self : SGD) (train_set : dataset)
    (valid_set : option dataset) (u : Z) : M unit :=
  acc ← list_comp (call (f_train self)) train_set;
  let fmt := "epoch %i[%.2g]: train %s" in
  rate ← call (f_rate self) [];
  rate0 ← index0 rate;
  let args := [LInt u; LNum rate0; LArr (npmean acc)] in
  go ← SGD_validates self valid_set u;
  '(fmt, args) ←
    (if go : bool
     then acc ← list_comp (call (f_eval self)) (default [] valid_set);
          mret (fmt +:+ " valid %s", args ++ [LArr (npmean acc)])
     else mret (fmt, args));
  log_event (ELogInfo fmt args).

Definition SGD_train (self : SGD) (train_set : dataset)
    (valid_set : option dataset) : M unit :=
  us ← xrange (epochs self);
  for_each us (SGD_epoch self train_set valid_set).

#[export] Instance SGD_trainer : Trainer SGD := {
  get_f_eval self := Some (f_eval self);
  train := SGD_train
}.

(** ** HF *)

Definition HF_URL : string :=
  "https://raw.github.com/boulanni/theano-hf/master/hf.py".

Record HF := {
  hf_f_eval : compiled;
  cg_set : pyval;
  opt : hf_module;
  hf_kwargs : kwargs
}.

(** [import hf] *)
Definition import_hf : M hf_module :=
  λ w, match hf_local w with
       | Some h => (Ok h, w)
       | None => (Raise ImportError, w)
       end.

(** [urllib.urlretrieve(url, path)]: what is fetched becomes importable. *)
Definition urlretrieve (url path : string) : M unit :=
  λ w, match hf_remote w with
       | Some h => (Ok tt, emit (EUrlRetrieve url path) (set_hf_local (Some h) w))
       | None => (Raise IOError, w)
       end.

(** [kwargs.pop(key)] and [kwargs.pop(key, default)]: the value and the
    dictionary that is left. *)
Definition dict_pop (kw : kwargs) (key : string) : M (pyval * kwargs) :=
  match kw !! key with
  | Some v => mret (v, delete key kw)
  | None => raise (KeyError key)
  end.

Definition dict_pop_default (kw : kwargs) (key : string) (dflt : pyval)
    : pyval * kwargs :=
  (default dflt (kw !! key), delete key kw).

(** [for k in set(kwargs) - set(names): kwargs.pop(k)] *)
Definition drop_unknown (names : list string) (kw : kwargs) : kwargs :=
  set_fold (λ k acc, delete k acc) kw
    (dom kw ∖ (list_to_set names : gset string)).

Definition HF_init (net : network) (kw : kwargs) : M HF :=
  hf ← try_except import_hf
         (log_event
            (ELogError "hf import failed, attempting to download %s" HF_URL);;
          let path := "hf.py" in
          urlretrieve HF_URL path;;
          log_event (ELogError "downloaded hf code to %s" path);;
          import_hf);
  let c := net_J net kw :: net_monitors net in
  let f_eval := theano_function FEval c ∅ in
  '(cg, kw) ← dict_pop kw "cg_set";
  let opt := hf in
  let '(e, kw) := dict_pop_default kw "epochs" (PInt maxint) in
  let kw := <["num_updates" := e]> kw in
  let '(v, kw) := dict_pop_default kw "validate" (PInt maxint) in
  let kw := <["validation_frequency" := v]> kw in
  let kw := drop_unknown (tail (co_varnames opt)) kw in
  mret {| hf_f_eval := f_eval; cg_set := cg; opt := opt; hf_kwargs := kw |}.

(** [self.opt.train(train_set, self.cg_set, validation=valid_set,
    **self.kwargs)]: what the optimizer does is its own; the call is
    recorded with what it is given. *)
Definition HF_train (self : HF) (train_set : dataset)
    (valid_set : option dataset) : M unit :=
  log_event (EOptTrain train_set (cg_set self) valid_set (hf_kwargs self)).

#[export] Instance HF_trainer : Trainer HF := {
  get_f_eval self := Some (hf_f_eval self);
  train := HF_train
}.

(** ** FORCE

    [__init__] stops at its second line: [get_value] is called with the
    keyword [shared], which it does not have.  What follows is never run: the
    default of [learning_rate], computed whether or not it is used, and the
    line that builds [P], where [FLOAT] is defined nowhere (nor are [T] and
    [b_out], further down). *)

Inductive FORCE := FORCE_object.

(** [1. / n] *)
Definition float_recip (n : nat) : M F :=
  if bool_decide (n = 0%nat)
  then raise ZeroDivisionError
  else mret (fdiv (of_int 1) (of_int (Z.of_nat n))).

Definition FORCE_init (net : network) (kw : kwargs) : M FORCE :=
  let '(W_in, W_pool, W_out) := net_weights net in
  value ← get_value_kw W_pool "shared";
  let n := array_len value in
  r ← float_recip n;
  let alpha := default (PFloat r) (kw !! "learning_rate") in
  raise (NameError "FLOAT").

Definition FORCE_train (self : FORCE) (train_set : dataset)
    (valid_set : option dataset) : M unit :=
  mret tt.

#[export] Instance FORCE_trainer : Trainer FORCE := {
  get_f_eval _ := None;
  train := FORCE_train
}.

End Trainers.

Abbreviation tensor F := (list F) (only parsing).
Abbreviation input F := (list (list F)) (only parsing).
Abbreviation dataset F := (list (list (list F))) (only parsing).
Abbreviation expr F := (gmap var (list F) → list (list F) → list F) (only parsing).
Abbreviation sexpr F := (gmap var (list F) → list (list F) → F) (only parsing).

Arguments pyval F : clear implicits.
Arguments logarg F : clear implicits.
Arguments event F : clear implicits.
Arguments world F : clear implicits.
Arguments M F A : clear implicits.
Arguments compiled F : clear implicits.
Arguments network F : clear implicits.
Arguments SGD F : clear implicits.
Arguments HF F : clear implicits.

(** ** What the properties speak of

    The update rules by name, the dictionary and the store that the loop of
    [SGD.__init__] leaves, and readings of the trace. *)

Section Observations.

Context {F : Type} `{Arith F}.
Variable TTgrad : sexpr F → var → expr F.

Definition step_rule : expr F :=
  λ st _, [fadd (scalar (st !!! VStep)) (of_int 1)].

Definition param_rule (p k : nat) : expr F :=
  λ st _, tadd (st !!! VParam p) (st !!! VHeading k).

Definition heading_rule (J : sexpr F) (m lr decay : F) (p k : nat) : expr F :=
  λ st x,
    tsub (scale m (st !!! VHeading k))
         (scale (rate_expr lr decay st x) (TTgrad J (VParam p) st x)).

Fixpoint loop_updates (J : sexpr F) (m lr decay : F) (k : nat)
    (params : list nat) (updates : gmap var (expr F)) : gmap var (expr F) :=
  match params with
  | [] => updates
  | p :: params =>
      loop_updates J m lr decay (S k) params
        (<[VHeading k := heading_rule J m lr decay p k]>
           (<[VParam p := param_rule p k]> updates))
  end.

Fixpoint loop_store (k : nat) (params : list nat) (st : gmap var (tensor F))
    : gmap var (tensor F) :=
  match params with
  | [] => st
  | p :: params =>
      loop_store (S k) params
        (<[VHeading k := zeros_like (st !!! VParam p)]> st)
  end.

(** The trainer that [SGD.__init__] returns for options of the given values. *)
Definition built_SGD (net : network F) (kw : gmap string (pyval F))
    (vf epochs : Z) (decay m lr : F) : SGD F :=
  let J := net_J net kw in
  let costs := J :: net_monitors net in
  {| vf := vf;
     epochs := epochs;
     f_eval := theano_function FEval costs ∅;
     f_rate := theano_function FRate [rate_expr lr decay] ∅;
     f_train := theano_function FTrain costs
       (loop_updates J m lr decay 0 (net_params net) {[ VStep := step_rule ]}) |}.

(** The value of the counter after [n] increments. *)
Definition nth_count (n : nat) : F :=
  Nat.iter n (λ t, fadd t (of_int 1)) (of_int 0).

(** [sgd_calls tr n w w']: from [w], calls of the three compiled functions of
    [tr], in any order and on any inputs, [n] of them of the training
    function, lead to [w']. *)
Inductive sgd_calls (tr : SGD F) : nat → world F → world F → Prop :=
  | calls_none w : sgd_calls tr 0 w w
  | calls_train n w w' x :
      sgd_calls tr n w w' →
      sgd_calls tr (S n) w (call (f_train tr) x w').2
  | calls_eval n w w' x :
      sgd_calls tr n w w' →
      sgd_calls tr n w (call (f_eval tr) x w').2
  | calls_rate n w w' x :
      sgd_calls tr n w w' →
      sgd_calls tr n w (call (f_rate tr) x w').2.

(** Readings of the trace. *)
Definition is_call (f : fname) (e : event F) : bool :=
  match e, f with
  | ECall FEval _, FEval => true
  | ECall FRate _, FRate => true
  | ECall FTrain _, FTrain => true
  | _, _ => false
  end.

Definition count_calls (f : fname) (evs : list (event F)) : nat :=
  length (filter (λ e, is_call f e) evs).

Definition fmt_train : string := "epoch %i[%.2g]: train %s".
Definition fmt_valid : string := "epoch %i[%.2g]: train %s valid %s".

(** The epochs that logged a line, and those whose line reports a mean over
    the validation set. *)
Definition logged_epoch (e : event F) : option Z :=
  match e with
  | ELogInfo _ (LInt u :: _) => Some u
  | _ => None
  end.

Definition validated_epoch (e : event F) : option Z :=
  match e with
  | ELogInfo fmt [LInt u; LNum _; LArr _; LArr _] =>
      if bool_decide (fmt = fmt_valid) then Some u else None
  | _ => None
  end.

Definition logged_epochs (evs : list (event F)) : list Z :=
  omap logged_epoch evs.

Definition validated_epochs (evs : list (event F)) : list Z :=
  omap validated_epoch evs.

(** The guard of [SGD.train], as the specification words it. *)
Definition validates (k : Z) (valid_set : option (dataset F)) (u : Z) : Prop :=
  is_Some valid_set ∧ k > 0 ∧ u `mod` k = 0.

#[export] Instance validates_dec k valid_set u :
  Decision (validates k valid_set u).
Proof. unfold validates. apply _. Defined.

(** What one epoch adds to the trace. *)
Definition epoch_events (train_set : dataset F) (valid_set : option (dataset F))
    (u : Z) (go : bool) (rate : F) (mt mv : tensor F) : list (event F) :=
  (ECall FTrain <$> train_set) ++ [ECall FRate []] ++
  (if go
   then (ECall FEval <$> default [] valid_set) ++
        [ELogInfo fmt_valid [LInt u; LNum rate; LArr mt; LArr mv]]
   else [ELogInfo fmt_train [LInt u; LNum rate; LArr mt]]).

(** A trainer whose compiled functions are the three that [SGD.__init__]
    compiles. *)
Definition SGD_compiled (tr : SGD F) : Prop :=
  fn_name (f_train tr) = FTrain ∧
  fn_name (f_eval tr) = FEval ∧
  fn_name (f_rate tr) = FRate ∧
  fn_outputs (f_rate tr) ≠ [].

(** The options of [HF.__init__] once [cg_set] is taken out and [epochs]
    and [validate] are renamed, before the unknown ones are dropped. *)
Definition renamed_options (maxint : Z) (kw : gmap string (pyval F))
    : gmap string (pyval F) :=
  let kw := delete "cg_set" kw in
  let e := default (PInt maxint) (kw !! "epochs") in
  let kw := <["num_updates" := e]> (delete "epochs" kw) in
  let v := default (PInt maxint) (kw !! "validate") in
  <["validation_frequency" := v]> (delete "validate" kw).

(** The [hf] module can be had: it is on the import path, or at [HF.URL]. *)
Definition hf_loadable (w : world F) : option hf_module :=
  match hf_local w with
  | Some h => Some h
  | None => hf_remote w
  end.

End Observations.

(** ** Runs of a compiled function

    The store and the outputs that successive calls of one compiled function
    leave, one call per item, in order. *)

Section Runs.

Context {F : Type} `{Arith F}.

Definition steps (f : compiled F) (st : gmap var (tensor F))
    (xs : dataset F) : gmap var (tensor F) :=
  foldl (apply_updates (fn_updates f)) st xs.

Fixpoint step_outputs (f : compiled F) (st : gmap var (tensor F))
    (xs : dataset F) : list (list F) :=
  match xs with
  | [] => []
  | x :: xs =>
      ((λ e : sexpr F, e st x) <$> fn_outputs f)
      :: step_outputs f (apply_updates (fn_updates f) st x) xs
  end.

(** The variables that the training function of an SGD trainer writes. *)
Definition SGD_writes (net : network F) (v : var) : Prop :=
  match v with
  | VStep => True
  | VParam p => p ∈ net_params net
  | VHeading k => (k < length (net_params net))%nat
  end.

End Runs.

(** ** The step counter's arithmetic

    [SGD.__init__] makes the counter with [numpy.cast['float32'](0)], and
    [t + 1] is a float32 again: IEEE 754 binary32, 24 bits of precision,
    rounding to nearest even.  The operations are those of the standard
    library's specification of floating-point numbers at that format. *)

Module Float32.

Definition prec : Z := 24.
Definition emax : Z := 128.

(** The cast of an integer. *)
Definition of_int (z : Z) : spec_float := binary_normalize prec emax z 0 false.

Definition add : spec_float → spec_float → spec_float := SFadd prec emax.
Definition sub : spec_float → spec_float → spec_float := SFsub prec emax.
Definition mul : spec_float → spec_float → spec_float := SFmul prec emax.
Definition div : spec_float → spec_float → spec_float := SFdiv prec emax.

(** The value of a number that is whole and not negative. *)
Definition whole (t : spec_float) : option N :=
  match t with
  | S754_zero _ => Some 0%N
  | S754_finite false m (Zpos k) => Some (Npos (Pos.iter xO m k))
  | S754_finite false m 0 => Some (Npos m)
  | S754_finite false m (Zneg k) =>
      if Zpos m mod 2 ^ Zpos k =? 0
      then Some (Z.to_N (Zpos m / 2 ^ Zpos k))
      else None
  | _ => None
  end.

(** A power for whole exponents, as the counter is, by repeated
    multiplication.  The tensor library's own may round otherwise; the
    properties of the counter hold for any. *)
Definition pow (x t : spec_float) : spec_float :=
  match whole t with
  | Some n => N.iter n (mul x) (of_int 1)
  | None => S754_nan
  end.

End Float32.

(** The arithmetic of tensors that are all of dtype float32. *)
Definition float32_arith : Arith spec_float := {|
  of_int := Float32.of_int;
  float_0_1 := Float32.div (Float32.of_int 1) (Float32.of_int 10);
  fadd := Float32.add;
  fsub := Float32.sub;
  fmul := Float32.mul;
  fdiv := Float32.div;
  fpow := Float32.pow
|}.

(** The most the counter reaches: past [2 ^ 24] not every whole number is a
    float32, and [2 ^ 24 + 1] rounds back to [2 ^ 24]. *)
Definition counter_max : Z := 2 ^ 24.

(** The counter after [n] increments of [0], as a number. *)
Definition counter_after (n : nat) : Z := Z.min (Z.of_nat n) counter_max.

(** A positive number shifted left by [n] bits, and the float32 of a
    positive number of at most 24 bits: its bits shifted to the top of the
    mantissa. *)
Definition shl (a : positive) (n : nat) : positive := Nat.iter n xO a.

Definition canon (q : positive) : spec_float :=
  S754_finite false
    (shl q (Z.to_nat (24 - Zpos (digits2_pos q))))
    (Zpos (digits2_pos q) - 24).
(** ** A network to run

    One weight tensor [w] (the shared variable [VParam 0]) and the loss
    [sum_i (w_i - 3)^2], over the rationals.  The specification's scenario is
    this network with [w = [1]] and [learning_rate=0.1]. *)

Module Example.

Definition q (a : Z) (b : positive) : Qc := Q2Qc (a # b).

Definition weights (st : gmap var (tensor Qc)) : tensor Qc :=
  st !!! VParam 0%nat.

Definition J : sexpr Qc :=
  λ st _, foldr (λ wi s, (Qcpower (wi - q 3 1) 2 + s)%Qc) (q 0 1) (weights st).

(** The gradient of [J] in [w]; no other variable is ever asked for. *)
Definition grad : sexpr Qc → var → expr Qc :=
  λ _ v st _,
    match v with
    | VParam 0 => (λ wi, (q 2 1 * (wi - q 3 1))%Qc) <$> weights st
    | _ => []
    end.

Definition col_sum (acc : list (list Qc)) : list Qc :=
  match acc with
  | [] => []
  | r :: rs => foldl (zip_with Qcplus) r rs
  end.

Definition mean (acc : list (list Qc)) : list Qc :=
  (λ s, (s / Q2Qc (inject_Z (Z.of_nat (length acc))))%Qc) <$> col_sum acc.

Definition maxint : Z := 2 ^ 63 - 1.

Definition net : network Qc := {|
  net_J := λ _, J;
  net_params := [0%nat];
  net_monitors := [];
  net_weights := (VParam 1, VParam 2, VParam 3)
|}.

(** Before any trainer is made: [w = [1]], an empty pool matrix, and no [hf]
    module to be had. *)
Definition w0 : world Qc := {|
  shared := {[ VParam 0%nat := [q 1 1]; VParam 2%nat := [] ]};
  events := [];
  hf_local := None;
  hf_remote := None
|}.

(** [SGD(net, learning_rate=0.1, epochs=2)] and the world it leaves. *)
Definition opts : gmap string (pyval Qc) :=
  {[ "learning_rate" := PFloat (q 1 10); "epochs" := PInt 2 ]}.

Definition tr : SGD Qc :=
  built_SGD grad net opts 3 2 (of_int 1) (of_int 0) (q 1 10).

Definition w1 : world Qc :=
  set_shared
    (<[VHeading 0%nat := [q 0 1]]> (<[VStep := [q 0 1]]> (shared w0))) w0.

(** The same with [validate=0], and with no option at all. *)
Definition opts_off : gmap string (pyval Qc) :=
  <["validate" := PInt 0]> opts.

Definition tr_off : SGD Qc :=
  built_SGD grad net opts_off 0 2 (of_int 1) (of_int 0) (q 1 10).

Definition tr_default : SGD Qc :=
  built_SGD grad net ∅ 3 maxint (of_int 1) (of_int 0) float_0_1.

(** A one-item training set and a one-item validation set; the network has
    no inputs. *)
Definition batches : dataset Qc := [[]].

(** An optimizer in the shape of [hf.py]: the arguments of its [train], and
    some of the variables local to it, [u] counting its updates. *)
Definition hf_code : hf_module := {|
  train_argnames :=
    ["self"; "gradient_dataset"; "cg_dataset"; "initial_lambda"; "mu";
     "global_backtracking"; "preconditioner"; "max_cg_iterations";
     "num_updates"; "validation"; "validation_frequency"; "patience";
     "save_progress"];
  train_localnames := ["best"; "first_iteration"; "u"; "gradient"; "costs"]
|}.

Definition w_hf : world Qc := {|
  shared := shared w0;
  events := [];
  hf_local := Some hf_code;
  hf_remote := None
|}.

(** [HF(net, cg_set=batches, mu=0.5, momentum=0.9, u=1)] *)
Definition opts_hf : gmap string (pyval Qc) :=
  {[ "cg_set" := PData batches; "mu" := PFloat (q 1 2);
     "momentum" := PFloat (q 9 10); "u" := PInt 1 ]}.

(** [HF(net, mu=0.5)]: no [cg_set]. *)
Definition opts_no_cg : gmap string (pyval Qc) :=
  {[ "mu" := PFloat (q 1 2) ]}.

End Example.

(** ** The example, continued *)

Module ExampleMore.
Import Example.


(** [HF(net, cg_set=batches, epochs=5, num_updates=100, mu=0.5)] *)
Definition opts_updates : gmap string (pyval Qc) :=
  {[ "cg_set" := PData batches; "epochs" := PInt 5;
     "num_updates" := PInt 100; "mu" := PFloat (q 1 2) ]}.

Definition hf_built (kw : gmap string (pyval Qc)) (cg : pyval Qc) : HF Qc := {|
  hf_f_eval := theano_function FEval [J] ∅;
  cg_set := cg;
  opt := hf_code;
  hf_kwargs := drop_unknown (tail (co_varnames hf_code))
                 (renamed_options maxint kw)
|}.

(** [SGD(net, learning_rate=0.1, epochs=0)] *)
Definition opts_zero : gmap string (pyval Qc) :=
  {[ "learning_rate" := PFloat (q 1 10); "epochs" := PInt 0 ]}.

Definition tr_zero : SGD Qc :=
  built_SGD grad net opts_zero 3 0 (of_int 1) (of_int 0) (q 1 10).

End ExampleMore.

(** ** The same network in float32

    One weight [w = [1]] and the loss [sum_i (w_i - 3)^2], all tensors of
    dtype float32; the options are the defaults. *)

Module Example32.

#[local] Existing Instance float32_arith.

Definition f32 (z : Z) : spec_float := Float32.of_int z.

Definition weights (st : gmap var (tensor spec_float)) : tensor spec_float :=
  st !!! VParam 0%nat.

Definition J : sexpr spec_float :=
  λ st _,
    foldr (λ wi s, fadd (fmul (fsub wi (f32 3)) (fsub wi (f32 3))) s)
          (f32 0) (weights st).

Definition grad : sexpr spec_float → var → expr spec_float :=
  λ _ v st _,
    match v with
    | VParam 0 => (λ wi, fmul (f32 2) (fsub wi (f32 3))) <$> weights st
    | _ => []
    end.

Definition maxint : Z := 2 ^ 63 - 1.

Definition net : network spec_float := {|
  net_J := λ _, J;
  net_params := [0%nat];
  net_monitors := [];
  net_weights := (VParam 1, VParam 2, VParam 3)
|}.

Definition w0 : world spec_float := {|
  shared := {[ VParam 0%nat := [f32 1] ]};
  events := [];
  hf_local := None;
  hf_remote := None
|}.

(** [SGD(net)]: every option at its default, [epochs] at [sys.maxint]. *)
Definition tr : SGD spec_float :=
  built_SGD grad net ∅ 3 maxint (f32 1) (f32 0) float_0_1.

Definition w1 : world spec_float :=
  set_shared
    (<[VHeading 0%nat := [f32 0]]> (<[VStep := [f32 0]]> (shared w0))) w0.

(** The world after [n] calls of the training function. *)
Definition after_calls (n : nat) : world spec_float :=
  Nat.iter n (λ w, (call (f_train tr) [] w).2) w1.

(** As many calls as the counter can count. *)
Definition counter_calls : nat := Z.to_nat counter_max.

(** One pass over a training set of three minibatches. *)
Definition opts_one : gmap string (pyval spec_float) := {[ "epochs" := PInt 1 ]}.

Definition tr_one : SGD spec_float :=
  built_SGD grad net opts_one 3 1 (f32 1) (f32 0) float_0_1.

Definition batches : list (list (list spec_float)) := [[]; []; []].

Definition col_sum (acc : list (list spec_float)) : list spec_float :=
  match acc with
  | [] => []
  | r :: rs => foldl (zip_with Float32.add) r rs
  end.

Definition mean (acc : list (list spec_float)) : list spec_float :=
  (λ s, Float32.div s (f32 (Z.of_nat (length acc)))) <$> col_sum acc.

End Example32.
(** * Properties *)

Section Properties.

Context {F : Type} `{Arith F}.
Variable TTgrad : sexpr F → var → expr F.
Variable npmean : list (list F) → tensor F.
Variable maxint : Z.

#[local] Instance SGD_is_trainer : Trainer (SGD F) :=
  SGD_trainer npmean maxint.

Implicit Types (w : world F) (st : gmap var (tensor F)).
Implicit Types (kw : gmap string (pyval F)).
Implicit Types (train_set test_set : dataset F).
Implicit Types (valid_set : option (dataset F)).
Implicit Types (rate : F) (mt mv : tensor F).

Lemma set_shared_id w : set_shared (shared w) w = w.
Proof. by destruct w. Qed.

Lemma set_shared_twice st st' w :
  set_shared st (set_shared st' w) = set_shared st w.
Proof. done. Qed.

Lemma bind_ok {A B} (c : M F A) (k : A → M F B) w a w' :
  c w = (Ok a, w') → (c ≫= k) w = k a w'.
Proof. intros Hc. unfold mbind, M_bind, bind. by rewrite Hc. Qed.

Lemma bind_raise {A B} (c : M F A) (k : A → M F B) w e w' :
  c w = (Raise e, w') → (c ≫= k) w = (Raise e, w').
Proof. intros Hc. unfold mbind, M_bind, bind. by rewrite Hc. Qed.

Lemma bind_inv_ok {A B} (c : M F A) (k : A → M F B) w b w2 :
  (c ≫= k) w = (Ok b, w2) →
  ∃ a w1, c w = (Ok a, w1) ∧ k a w1 = (Ok b, w2).
Proof.
  unfold mbind, M_bind, bind. destruct (c w) as [[a|e] w1]; [eauto|done].
Qed.

Lemma SGD_param_loop_eq J m lr decay params : ∀ k updates w,
  SGD_param_loop TTgrad J m lr decay k params updates w =
    (Ok (loop_updates TTgrad J m lr decay k params updates),
     set_shared (loop_store k params (shared w)) w).
Proof.
  induction params as [|p params IH]; intros k updates w; simpl.
  - by rewrite set_shared_id.
  - unfold mbind, M_bind, bind, get_value, theano_shared. simpl.
    rewrite IH. simpl. done.
Qed.

(** *** The dictionary of updates *)

Section Updates.

Variables (J : sexpr F) (m lr decay : F).

Lemma loop_updates_step params : ∀ k updates,
  loop_updates TTgrad J m lr decay k params updates !! VStep = updates !! VStep.
Proof.
  induction params as [|p params IH]; intros k updates; simpl; [done|].
  rewrite IH. by rewrite !lookup_insert_ne.
Qed.

Lemma loop_updates_heading_lt params : ∀ k updates i,
  (i < k)%nat →
  loop_updates TTgrad J m lr decay k params updates !! VHeading i
  = updates !! VHeading i.
Proof.
  induction params as [|p params IH]; intros k updates i Hi; simpl; [done|].
  rewrite IH; [|lia]. rewrite lookup_insert_ne; [|intros [=]; lia].
  by rewrite lookup_insert_ne.
Qed.

Lemma loop_updates_heading params : ∀ k updates j p,
  params !! j = Some p →
  loop_updates TTgrad J m lr decay k params updates !! VHeading (k + j)
  = Some (heading_rule TTgrad J m lr decay p (k + j)).
Proof.
  induction params as [|q params IH]; intros k updates j p Hj; [done|].
  destruct j as [|j]; simpl in *.
  - injection Hj as ->. rewrite Nat.add_0_r.
    rewrite loop_updates_heading_lt; [|lia]. by rewrite lookup_insert_eq.
  - replace (k + S j)%nat with (S k + j)%nat by lia. by apply IH.
Qed.

Lemma loop_updates_param_notin params : ∀ k updates p,
  p ∉ params →
  loop_updates TTgrad J m lr decay k params updates !! VParam p
  = updates !! VParam p.
Proof.
  induction params as [|q params IH]; intros k updates p Hp; simpl; [done|].
  apply not_elem_of_cons in Hp as [Hpq Hp].
  rewrite IH; [|done]. rewrite lookup_insert_ne; [|done].
  rewrite lookup_insert_ne; [done|]. by intros [=].
Qed.

Lemma loop_updates_param params : ∀ k updates j p,
  params !! j = Some p →
  p ∉ drop (S j) params →
  loop_updates TTgrad J m lr decay k params updates !! VParam p
  = Some (param_rule p (k + j)).
Proof.
  induction params as [|q params IH]; intros k updates j p Hj Hlast; [done|].
  destruct j as [|j]; simpl in *.
  - injection Hj as ->. rewrite Nat.add_0_r. rewrite drop_0 in Hlast.
    rewrite loop_updates_param_notin; [|done].
    rewrite lookup_insert_ne; [|done]. by rewrite lookup_insert_eq.
  - replace (k + S j)%nat with (S k + j)%nat by lia. by apply IH.
Qed.

End Updates.

(** *** The store after construction *)

Lemma loop_store_step params : ∀ k st,
  loop_store k params st !! VStep = st !! VStep.
Proof.
  induction params as [|p params IH]; intros k st; simpl; [done|].
  rewrite IH. by rewrite lookup_insert_ne.
Qed.






(** *** Calls of compiled functions *)

Lemma apply_updates_lookup (updates : gmap var (expr F)) st x v :
  apply_updates updates st x !! v =
    match updates !! v with
    | Some e => Some (e st x)
    | None => st !! v
    end.
Proof.
  unfold apply_updates. rewrite lookup_union, lookup_fmap.
  destruct (updates !! v); simpl; [|by rewrite (left_id None _)].
  by destruct (st !! v).
Qed.

Lemma apply_updates_total (updates : gmap var (expr F)) st x v e :
  updates !! v = Some e → apply_updates updates st x !!! v = e st x.
Proof.
  intros He. rewrite lookup_total_alt, apply_updates_lookup. by rewrite He.
Qed.

Lemma apply_updates_empty st x : apply_updates (∅ : gmap var (expr F)) st x = st.
Proof. unfold apply_updates. by rewrite fmap_empty, (left_id_L ∅ _). Qed.

(** *** Construction of the SGD trainer *)

Lemma SGD_init_eq net kw w vf ep decay m lr :
  option_int kw "validate" 3 = Some vf →
  option_int kw "epochs" maxint = Some ep →
  option_num kw "decay" (of_int 1) = Some decay →
  option_num kw "momentum" (of_int 0) = Some m →
  option_num kw "learning_rate" float_0_1 = Some lr →
  SGD_init TTgrad maxint net kw w =
    (Ok (built_SGD TTgrad net kw vf ep decay m lr),
     set_shared
       (loop_store 0 (net_params net) (<[VStep := [of_int 0]]> (shared w))) w).
Proof.
  intros Hvf Hep Hdecay Hm Hlr. unfold SGD_init, get_int, get_num.
  rewrite Hvf, Hep, Hdecay, Hm, Hlr. simpl.
  unfold mbind, M_bind, bind, mret, M_ret, ret, theano_shared. simpl.
  rewrite SGD_param_loop_eq. simpl. done.
Qed.

Lemma SGD_init_inv net kw w tr w1 :
  SGD_init TTgrad maxint net kw w = (Ok tr, w1) →
  ∃ vf ep decay m lr,
    option_int kw "validate" 3 = Some vf ∧
    option_int kw "epochs" maxint = Some ep ∧
    option_num kw "decay" (of_int 1) = Some decay ∧
    option_num kw "momentum" (of_int 0) = Some m ∧
    option_num kw "learning_rate" float_0_1 = Some lr ∧
    tr = built_SGD TTgrad net kw vf ep decay m lr ∧
    w1 = set_shared
       (loop_store 0 (net_params net) (<[VStep := [of_int 0]]> (shared w))) w.
Proof.
  intros Hinit.
  destruct (option_int kw "validate" 3) as [vf|] eqn:Hvf;
    [|by unfold SGD_init, get_int in Hinit; rewrite Hvf in Hinit].
  destruct (option_int kw "epochs" maxint) as [ep|] eqn:Hep;
    [|by unfold SGD_init, get_int in Hinit; rewrite Hvf, Hep in Hinit].
  destruct (option_num kw "decay" (of_int 1)) as [decay|] eqn:Hdecay;
    [|by unfold SGD_init, get_int, get_num in Hinit;
         rewrite Hvf, Hep, Hdecay in Hinit].
  destruct (option_num kw "momentum" (of_int 0)) as [m|] eqn:Hm;
    [|by unfold SGD_init, get_int, get_num in Hinit;
         rewrite Hvf, Hep, Hdecay, Hm in Hinit].
  destruct (option_num kw "learning_rate" float_0_1) as [lr|] eqn:Hlr;
    [|by unfold SGD_init, get_int, get_num in Hinit;
         rewrite Hvf, Hep, Hdecay, Hm, Hlr in Hinit].
  rewrite (SGD_init_eq _ _ _ _ _ _ _ _ Hvf Hep Hdecay Hm Hlr) in Hinit.
  injection Hinit as <- <-. by exists vf, ep, decay, m, lr.
Qed.

Lemma built_SGD_step_rule net kw vf ep decay m lr :
  fn_updates (f_train (built_SGD TTgrad net kw vf ep decay m lr)) !! VStep
  = Some step_rule.
Proof. simpl. rewrite loop_updates_step. by rewrite lookup_singleton_eq. Qed.

(** C1. The training step of the SGD trainer replaces each parameter by
    parameter + heading and each heading by
    momentum * heading - learning_rate * decay ** t * gradient, every right
    hand side being read on the store as it was before the call: the
    parameter moves by the heading that the previous call left, and the
    heading is then refreshed.  The heading made in turn [k] of the loop
    belongs to the [k]-th entry of [network.params]; the parameter rule that
    stays in the dictionary is the one written last for that parameter. *)
Theorem C1_sgd_update_pair net kw w tr w1 decay m lr k p :
  SGD_init TTgrad maxint net kw w = (Ok tr, w1) →
  option_num kw "decay" (of_int 1) = Some decay →
  option_num kw "momentum" (of_int 0) = Some m →
  option_num kw "learning_rate" float_0_1 = Some lr →
  net_params net !! k = Some p →
  ∀ wa x,
    let st := shared wa in
    let st' := shared (call (f_train tr) x wa).2 in
    st' !!! VHeading k =
      tsub (scale m (st !!! VHeading k))
           (scale (fmul lr (fpow decay (scalar (st !!! VStep))))
                  (TTgrad (net_J net kw) (VParam p) st x)) ∧
    (p ∉ drop (S k) (net_params net) →
     st' !!! VParam p = tadd (st !!! VParam p) (st !!! VHeading k)).
Proof.
  intros Hinit Hdecay Hm Hlr Hk wa x.
  apply SGD_init_inv in Hinit
    as (vf & ep & decay' & m' & lr' & _ & _ & Hd' & Hm' & Hl' & -> & ->).
  assert (decay' = decay) as -> by congruence.
  assert (m' = m) as -> by congruence.
  assert (lr' = lr) as -> by congruence.
  simpl. split.
  - erewrite apply_updates_total;
      [|by apply (loop_updates_heading _ _ _ _ _ 0%nat)]. done.
  - intros Hlast. erewrite apply_updates_total;
      [|by apply (loop_updates_param _ _ _ _ _ 0%nat)]. done.
Qed.

(** *** The step counter *)

Lemma call_shared_empty (f : compiled F) x w :
  fn_updates f = ∅ → shared (call f x w).2 = shared w.
Proof. intros Hf. simpl. rewrite Hf. apply apply_updates_empty. Qed.

Lemma sgd_calls_counter net kw vf ep decay m lr n w1 w2 :
  sgd_calls (built_SGD TTgrad net kw vf ep decay m lr) n w1 w2 →
  shared w1 !!! VStep = [of_int 0] →
  shared w2 !!! VStep = [nth_count n].
Proof.
  intros Hcalls Hzero. induction Hcalls as [w|n w w' x _ IH|n w w' x _ IH|n w w' x _ IH].
  - done.
  - specialize (IH Hzero). simpl.
    erewrite apply_updates_total;
      [|apply (built_SGD_step_rule net kw vf ep decay m lr)].
    unfold step_rule. by rewrite IH.
  - rewrite call_shared_empty; [by apply IH|done].
  - rewrite call_shared_empty; [by apply IH|done].
Qed.

(** *** Evaluation *)

Lemma list_comp_call_pure (f : compiled F) (xs : list (input F)) : ∀ w,
  fn_updates f = ∅ →
  list_comp (call f) xs w =
    (Ok ((λ x, (λ e : sexpr F, e (shared w) x) <$> fn_outputs f) <$> xs),
     {| shared := shared w;
        events := events w ++ (ECall (fn_name f) <$> xs);
        hf_local := hf_local w;
        hf_remote := hf_remote w |}).
Proof.
  intros w Hf. revert w.
  induction xs as [|x xs IH]; intros w; simpl.
  - rewrite app_nil_r. by destruct w.
  - unfold mbind, M_bind, bind. simpl. rewrite IH. simpl.
    rewrite Hf, apply_updates_empty. by rewrite <- app_assoc.
Qed.

Lemma list_comp_ext {A B} (f g : A → M F B) (l : list A) :
  (∀ a w, f a w = g a w) → ∀ w, list_comp f l w = list_comp g l w.
Proof.
  intros Hfg. induction l as [|a l IH]; intros w; simpl; [done|].
  unfold mbind, M_bind, bind. rewrite Hfg.
  destruct (g a w) as [[b|e] w']; [|done]. by rewrite IH.
Qed.

(** C5. [evaluate(test_set)] on an SGD trainer returns, in order, the costs
    (loss and monitors) of each item of [test_set], all read on the store as
    it was at the call, and leaves every shared variable (the parameters,
    the headings and the counter) as it was: the evaluation function was
    compiled without update rules.  Only the trace grows, by one evaluation
    call per item. *)
Theorem C5_evaluate_pure net kw w tr w1 :
  SGD_init TTgrad maxint net kw w = (Ok tr, w1) →
  fn_updates (f_eval tr) = ∅ ∧
  ∀ test_set wa,
    evaluate tr test_set wa =
      (Ok ((λ x, (λ e : sexpr F, e (shared wa) x)
                   <$> (net_J net kw :: net_monitors net)) <$> test_set),
       {| shared := shared wa;
          events := events wa ++ (ECall FEval <$> test_set);
          hf_local := hf_local wa;
          hf_remote := hf_remote wa |}).
Proof.
  intros Hinit.
  apply SGD_init_inv in Hinit
    as (vf & ep & decay & m & lr & _ & _ & _ & _ & _ & -> & ->).
  split; [done|]. intros test_set wa.
  unfold evaluate, getattr_f_eval. simpl.
  rewrite (list_comp_ext _
    (call (theano_function FEval (net_J net kw :: net_monitors net) ∅)));
    [|done].
  by apply list_comp_call_pure.
Qed.

(** *** The trace of [SGD.train] *)

Lemma built_SGD_compiled net kw vf ep decay m lr :
  SGD_compiled (built_SGD TTgrad net kw vf ep decay m lr).
Proof. by repeat split. Qed.

Lemma list_comp_call_events (f : compiled F) (xs : list (input F)) : ∀ w,
  ∃ outs w',
    list_comp (call f) xs w = (Ok outs, w') ∧
    events w' = events w ++ (ECall (fn_name f) <$> xs).
Proof.
  induction xs as [|x xs IH]; intros w; simpl.
  - exists [], w. by rewrite app_nil_r.
  - unfold mbind, M_bind, bind. simpl.
    edestruct IH as (outs & w' & -> & Hev).
    eexists _, _. split; [done|]. rewrite Hev. simpl.
    by rewrite <- app_assoc.
Qed.

Lemma SGD_validates_eq (tr : SGD F) valid_set u w :
  SGD_validates tr valid_set u w
  = (Ok (bool_decide (validates (vf tr) valid_set u)), w).
Proof.
  unfold SGD_validates, validates. destruct valid_set as [vs|].
  - destruct (decide (vf tr > 0)) as [Hvf|Hvf].
    + rewrite (bool_decide_eq_true_2 _ Hvf).
      unfold py_mod. rewrite bool_decide_eq_false_2 by lia.
      unfold mbind, M_bind, bind, mret, M_ret, ret.
      destruct (decide (u `mod` vf tr = 0)) as [Hu|Hu].
      * rewrite !bool_decide_eq_true_2; [done| |done]. by split; [eexists|].
      * rewrite !bool_decide_eq_false_2; [done| |done]. by intros (_ & _ & ?).
    + rewrite (bool_decide_eq_false_2 _ Hvf).
      rewrite bool_decide_eq_false_2; [done|]. by intros (_ & ? & _).
  - rewrite bool_decide_eq_false_2; [done|]. by intros [[? [=]] _].
Qed.

Lemma SGD_epoch_events (tr : SGD F) train_set valid_set u w :
  SGD_compiled tr →
  ∃ w' rate mt mv,
    SGD_epoch npmean tr train_set valid_set u w = (Ok tt, w') ∧
    events w' = events w ++
      epoch_events train_set valid_set u
        (bool_decide (validates (vf tr) valid_set u)) rate mt mv.
Proof.
  intros (Htrain & Heval & Hrate & Hout). unfold SGD_epoch.
  destruct (list_comp_call_events (f_train tr) train_set w)
    as (acc & w2 & Hacc & Hev2).
  rewrite (bind_ok _ _ _ _ _ Hacc).
  unfold mbind at 1, M_bind at 1, bind at 1. simpl.
  destruct (fn_outputs (f_rate tr)) as [|r0 routs] eqn:Hr; [done|]. simpl.
  unfold mbind at 1, M_bind at 1, bind at 1. simpl.
  unfold mbind at 1, M_bind at 1, bind at 1.
  rewrite SGD_validates_eq.
  set (st2 := apply_updates _ _ _).
  set (w3 := emit _ _).
  assert (events w3 = events w ++ (ECall FTrain <$> train_set)
                      ++ [ECall FRate []]) as Hev3.
  { unfold w3. simpl. rewrite Hev2, Htrain, Hrate. by rewrite <- app_assoc. }
  clearbody w3. unfold epoch_events. case_bool_decide as Hgo.
  - destruct (list_comp_call_events (f_eval tr) (default [] valid_set) w3)
      as (acc' & w4 & Hacc' & Hev4).
    unfold mbind at 1, M_bind at 1, bind at 1.
    rewrite (bind_ok _ _ _ _ _ Hacc'). simpl.
    eexists _, _, _, _. split; [reflexivity|].
    simpl. rewrite Hev4, Hev3, Heval. by rewrite <- !app_assoc.
  - unfold mbind at 1, M_bind at 1, bind at 1. simpl.
    eexists _, _, _, []. split; [reflexivity|].
    simpl. rewrite Hev3. by rewrite <- !app_assoc.
Qed.

Lemma count_calls_app f (a b : list (event F)) :
  count_calls f (a ++ b) = (count_calls f a + count_calls f b)%nat.
Proof. unfold count_calls. by rewrite filter_app, length_app. Qed.

Lemma logged_epochs_app (a b : list (event F)) :
  logged_epochs (a ++ b) = logged_epochs a ++ logged_epochs b.
Proof. apply omap_app. Qed.

Lemma validated_epochs_app (a b : list (event F)) :
  validated_epochs (a ++ b) = validated_epochs a ++ validated_epochs b.
Proof. apply omap_app. Qed.

Lemma count_calls_fmap_same f (xs : list (input F)) :
  count_calls f (ECall f <$> xs) = length xs.
Proof.
  unfold count_calls. induction xs as [|x xs IH]; simpl; [done|].
  rewrite filter_cons_True by (by destruct f). simpl. f_equal. exact IH.
Qed.

Lemma count_calls_fmap_other f g (xs : list (input F)) :
  f ≠ g → count_calls f (ECall g <$> xs) = 0%nat.
Proof.
  intros Hfg. unfold count_calls. induction xs as [|x xs IH]; simpl; [done|].
  rewrite filter_cons_False
    by (destruct f, g; simpl; first [congruence | exact id]).
  exact IH.
Qed.

Lemma logged_epochs_fmap g (xs : list (input F)) :
  logged_epochs (ECall g <$> xs) = [].
Proof. by induction xs. Qed.

Lemma validated_epochs_fmap g (xs : list (input F)) :
  validated_epochs (ECall g <$> xs) = [].
Proof. by induction xs. Qed.

Lemma epoch_events_readings train_set valid_set u go rate mt mv :
  let new := epoch_events train_set valid_set u go rate mt mv in
  count_calls FTrain new = length train_set ∧
  count_calls FEval new
    = (if go then length (default [] valid_set) else 0%nat) ∧
  logged_epochs new = [u] ∧
  validated_epochs new = (if go then [u] else []).
Proof.
  unfold epoch_events.
  repeat split; destruct go;
    rewrite ?count_calls_app, ?logged_epochs_app, ?validated_epochs_app,
      ?count_calls_fmap_same, ?logged_epochs_fmap, ?validated_epochs_fmap,
      ?(count_calls_fmap_other FTrain FEval),
      ?(count_calls_fmap_other FEval FTrain) by done;
    simpl; try done; unfold count_calls; simpl; lia.
Qed.

(** What the loop of [SGD.train] leaves in the trace, over any list of epoch
    indices. *)
Lemma SGD_loop_trace (tr : SGD F) train_set valid_set us :
  SGD_compiled tr →
  ∀ w, ∃ w' new,
    for_each us (SGD_epoch npmean tr train_set valid_set) w = (Ok tt, w') ∧
    events w' = events w ++ new ∧
    count_calls FTrain new = (length us * length train_set)%nat ∧
    count_calls FEval new
      = (length (filter (validates (vf tr) valid_set) us)
         * length (default [] valid_set))%nat ∧
    logged_epochs new = us ∧
    validated_epochs new = filter (validates (vf tr) valid_set) us.
Proof.
  intros Htr. induction us as [|u us IH]; intros w.
  - exists w, []. simpl. by rewrite app_nil_r.
  - destruct (SGD_epoch_events tr train_set valid_set u w Htr)
      as (w1 & rate & mt & mv & Hepoch & Hev1).
    destruct (IH w1) as (w2 & new & Hrest & Hev2 & Htrain & Heval & Hlog & Hval).
    destruct (epoch_events_readings train_set valid_set u
                (bool_decide (validates (vf tr) valid_set u)) rate mt mv)
      as (Etrain & Eeval & Elog & Eval).
    eexists w2, (_ ++ new). simpl.
    rewrite (bind_ok _ _ _ _ _ Hepoch). split; [done|].
    split; [by rewrite Hev2, Hev1, app_assoc|].
    rewrite !count_calls_app, logged_epochs_app, validated_epochs_app.
    rewrite Etrain, Eeval, Elog, Eval, Htrain, Heval, Hlog, Hval.
    rewrite filter_cons. case_bool_decide as Hgo.
    + rewrite decide_True by done. simpl. repeat split; lia.
    + rewrite decide_False by done. simpl. repeat split; lia.
Qed.

Lemma xrange_ok n :
  - maxint - 1 ≤ n ≤ maxint →
  ∀ w, xrange maxint n w = (Ok (Z.of_nat <$> seq 0 (Z.to_nat n)), w).
Proof. intros Hn w. unfold xrange. by rewrite bool_decide_eq_true_2. Qed.

Lemma xrange_overflow n :
  ¬ (- maxint - 1 ≤ n ≤ maxint) →
  ∀ w, xrange maxint n w = (Raise OverflowError, w).
Proof. intros Hn w. unfold xrange. by rewrite bool_decide_eq_false_2. Qed.

Lemma SGD_train_trace (tr : SGD F) train_set valid_set w :
  SGD_compiled tr →
  - maxint - 1 ≤ epochs tr ≤ maxint →
  let us := Z.of_nat <$> seq 0 (Z.to_nat (epochs tr)) in
  ∃ w' new,
    SGD_train npmean maxint tr train_set valid_set w = (Ok tt, w') ∧
    events w' = events w ++ new ∧
    count_calls FTrain new = (Z.to_nat (epochs tr) * length train_set)%nat ∧
    count_calls FEval new
      = (length (filter (validates (vf tr) valid_set) us)
         * length (default [] valid_set))%nat ∧
    logged_epochs new = us ∧
    validated_epochs new = filter (validates (vf tr) valid_set) us.
Proof.
  intros Htr Hep us.
  destruct (SGD_loop_trace tr train_set valid_set us Htr w)
    as (w' & new & Hloop & Hev & Htrain & Heval & Hlog & Hval).
  exists w', new. unfold SGD_train.
  rewrite (bind_ok _ _ _ _ _ (xrange_ok _ Hep w)).
  repeat split; try done.
  rewrite Htrain. unfold us. by rewrite length_fmap, length_seq.
Qed.

Lemma filter_validates_off k valid_set (us : list Z) :
  k ≤ 0 → filter (validates k valid_set) us = [].
Proof.
  intros Hk. induction us as [|u us IH]; [done|].
  rewrite filter_cons_False; [done|]. intros (_ & ? & _). lia.
Qed.

Lemma elem_of_epochs (ep u : Z) :
  u ∈ (Z.of_nat <$> seq 0 (Z.to_nat ep)) ↔ 0 ≤ u < ep.
Proof.
  rewrite list_elem_of_fmap. split.
  - intros (i & -> & Hi). apply elem_of_seq in Hi. lia.
  - intros Hu. exists (Z.to_nat u). split; [lia|]. apply elem_of_seq. lia.
Qed.

(** C4. In [SGD.train] the epochs that evaluate the validation set are
    exactly the epochs [u] of the run for which [valid_set] is not [None],
    the validation frequency [k] is positive and [u % k == 0]; each of them
    calls the evaluation function once per item of [valid_set] and no other
    epoch calls it.  With [validate=0] no epoch does. *)
Theorem C4_validation_epochs net kw w tr w1 k ep train_set valid_set wa :
  SGD_init TTgrad maxint net kw w = (Ok tr, w1) →
  option_int kw "validate" 3 = Some k →
  option_int kw "epochs" maxint = Some ep →
  - maxint - 1 ≤ ep ≤ maxint →
  ∃ wb new,
    SGD_train npmean maxint tr train_set valid_set wa = (Ok tt, wb) ∧
    events wb = events wa ++ new ∧
    (∀ u, u ∈ validated_epochs new ↔
          0 ≤ u < ep ∧ is_Some valid_set ∧ k > 0 ∧ u `mod` k = 0) ∧
    count_calls FEval new
      = (length (validated_epochs new) * length (default [] valid_set))%nat ∧
    (k = 0 → validated_epochs new = [] ∧ count_calls FEval new = 0%nat).
Proof.
  intros Hinit Hk Hep Hrange.
  apply SGD_init_inv in Hinit
    as (vf & ep' & decay & m & lr & Hk' & Hep' & _ & _ & _ & -> & ->).
  assert (vf = k) as -> by congruence.
  assert (ep' = ep) as -> by congruence.
  destruct (SGD_train_trace (built_SGD TTgrad net kw k ep decay m lr)
              train_set valid_set wa (built_SGD_compiled _ _ _ _ _ _ _) Hrange)
    as (wb & new & Htrain & Hev & _ & Heval & _ & Hval).
  simpl in Heval, Hval.
  exists wb, new. split; [done|]. split; [done|]. split; [|split].
  - intros u. rewrite Hval, list_elem_of_filter, elem_of_epochs.
    unfold validates. tauto.
  - by rewrite Heval, Hval.
  - intros ->. rewrite Heval, Hval, filter_validates_off by lia. done.
Qed.

(** C8 (as amended). [SGD.train] returns after [max(epochs, 0)] turns of
    its loop, for [epochs] a native integer; the turns are numbered from 0,
    each logs one line and calls the training function once per item of
    [train_set], which makes [max(epochs, 0) * |train_set|] training calls.
    When the option [epochs] is not given, [epochs] is [sys.maxint]. *)
Theorem C8_epochs_and_training_calls net kw w tr w1 ep train_set valid_set wa :
  SGD_init TTgrad maxint net kw w = (Ok tr, w1) →
  option_int kw "epochs" maxint = Some ep →
  - maxint - 1 ≤ ep ≤ maxint →
  (kw !! "epochs" = None → ep = maxint) ∧
  ∃ wb new,
    SGD_train npmean maxint tr train_set valid_set wa = (Ok tt, wb) ∧
    events wb = events wa ++ new ∧
    logged_epochs new = Z.of_nat <$> seq 0 (Z.to_nat ep) ∧
    count_calls FTrain new = (Z.to_nat ep * length train_set)%nat.
Proof.
  intros Hinit Hep Hrange. split.
  { intros Hnone. unfold option_int in Hep. rewrite Hnone in Hep. congruence. }
  apply SGD_init_inv in Hinit
    as (vf & ep' & decay & m & lr & _ & Hep' & _ & _ & _ & -> & ->).
  assert (ep' = ep) as -> by congruence.
  destruct (SGD_train_trace (built_SGD TTgrad net kw vf ep decay m lr)
              train_set valid_set wa (built_SGD_compiled _ _ _ _ _ _ _) Hrange)
    as (wb & new & Htrain & Hev & Hcalls & _ & Hlog & _).
  by exists wb, new.
Qed.

(** C10. An SGD trainer built with [validate=v] for any [v <= 0] never
    evaluates the validation set: whatever [SGD.train] is given and however
    it ends, it adds no call of the evaluation function to the trace and no
    log line with a validation part. *)
Theorem C10_nonpositive_validate_never_validates
    net kw w tr w1 v train_set valid_set wa r wb :
  SGD_init TTgrad maxint net kw w = (Ok tr, w1) →
  kw !! "validate" = Some (PInt v) →
  v ≤ 0 →
  SGD_train npmean maxint tr train_set valid_set wa = (r, wb) →
  ∃ new,
    events wb = events wa ++ new ∧
    count_calls FEval new = 0%nat ∧
    validated_epochs new = [].
Proof.
  intros Hinit Hv Hle Htrain.
  apply SGD_init_inv in Hinit
    as (vf & ep & decay & m & lr & Hvf & _ & _ & _ & _ & -> & ->).
  unfold option_int in Hvf. rewrite Hv in Hvf. injection Hvf as <-.
  destruct (decide (- maxint - 1 ≤ ep ≤ maxint)) as [Hrange|Hrange].
  - destruct (SGD_train_trace (built_SGD TTgrad net kw v ep decay m lr)
                train_set valid_set wa (built_SGD_compiled _ _ _ _ _ _ _)
                Hrange)
      as (wb' & new & Htrain' & Hev & _ & Heval & _ & Hval).
    rewrite Htrain in Htrain'. injection Htrain' as -> ->.
    exists new. simpl in Heval, Hval.
    rewrite filter_validates_off in Heval, Hval by done. done.
  - unfold SGD_train in Htrain.
    rewrite (bind_raise _ _ _ _ _ (xrange_overflow _ Hrange wa)) in Htrain.
    injection Htrain as <- <-. exists []. by rewrite app_nil_r.
Qed.

(** *** Plain gradient descent: momentum 0, decay 1

    Here the arithmetic is taken exact as far as these five laws go. *)

Section Plain.

Hypothesis fmul_0_l : ∀ x : F, fmul (of_int 0) x = of_int 0.
Hypothesis fmul_1_r : ∀ x : F, fmul x (of_int 1) = x.
Hypothesis fpow_1_l : ∀ t : F, fpow (of_int 1) t = of_int 1.
Hypothesis fadd_0_r : ∀ x : F, fadd x (of_int 0) = x.
Hypothesis fadd_fsub_0 : ∀ x y : F, fadd x (fsub (of_int 0) y) = fsub x y.




End Plain.

(** *** HF *)

Lemma drop_unknown_lookup (names : list string) kw (k : string) :
  drop_unknown names kw !! k = if decide (k ∈ names) then kw !! k else None.
Proof.
  unfold drop_unknown.
  assert (∀ X : gset string,
    set_fold (λ k acc, delete k acc) kw X !! k
    = if decide (k ∈ X) then None else kw !! k) as Hfold.
  { apply (set_fold_ind_L
      (λ (acc : gmap string (pyval F)) (X : gset string),
         acc !! k = if decide (k ∈ X) then None else kw !! k)).
    - by rewrite decide_False by set_solver.
    - intros x X acc Hx IH. destruct (decide (k = x)) as [->|Hne].
      + rewrite lookup_delete_eq. by rewrite decide_True by set_solver.
      + rewrite lookup_delete_ne by done. rewrite IH.
        destruct (decide (k ∈ X)).
        * by rewrite decide_True by set_solver.
        * by rewrite decide_False by set_solver. }
  rewrite Hfold. destruct (decide (k ∈ names)) as [Hin|Hout].
  - rewrite decide_False; [done|].
    rewrite elem_of_difference, elem_of_list_to_set. tauto.
  - destruct (kw !! k) as [v|] eqn:Hk; [|by case_decide].
    rewrite decide_True; [done|].
    rewrite elem_of_difference, elem_of_list_to_set, elem_of_dom. eauto.
Qed.

Lemma HF_load_ok w h :
  hf_loadable w = Some h →
  ∃ w',
    try_except import_hf
      (log_event
         (ELogError "hf import failed, attempting to download %s" HF_URL);;
       urlretrieve HF_URL "hf.py";;
       log_event (ELogError "downloaded hf code to %s" "hf.py");;
       import_hf) w = (Ok h, w') ∧
    shared w' = shared w.
Proof.
  unfold hf_loadable, try_except, import_hf. intros Hload.
  destruct (hf_local w) as [h'|] eqn:Hlocal.
  - injection Hload as ->. by exists w.
  - unfold mbind, M_bind, bind, log_event, urlretrieve. simpl.
    rewrite Hload. simpl. by eexists.
Qed.

Lemma HF_load_fails w :
  hf_loadable w = None →
  ∃ w',
    try_except import_hf
      (log_event
         (ELogError "hf import failed, attempting to download %s" HF_URL);;
       urlretrieve HF_URL "hf.py";;
       log_event (ELogError "downloaded hf code to %s" "hf.py");;
       import_hf) w = (Raise IOError, w') ∧
    shared w' = shared w.
Proof.
  unfold hf_loadable, try_except, import_hf. intros Hload.
  destruct (hf_local w) as [h'|] eqn:Hlocal; [done|].
  unfold mbind, M_bind, bind, log_event, urlretrieve. simpl.
  rewrite Hload. simpl. by eexists.
Qed.

(** What [HF.__init__] returns when the module loads and [cg_set] is given. *)
Lemma HF_init_ok net kw w h cg :
  hf_loadable w = Some h →
  kw !! "cg_set" = Some cg →
  ∃ w',
    HF_init maxint net kw w =
      (Ok {| hf_f_eval :=
               theano_function FEval (net_J net kw :: net_monitors net) ∅;
             cg_set := cg;
             opt := h;
             hf_kwargs :=
               drop_unknown (tail (co_varnames h)) (renamed_options maxint kw) |},
       w') ∧
    shared w' = shared w.
Proof.
  intros Hload Hcg. destruct (HF_load_ok w h Hload) as (w' & Himp & Hsh).
  exists w'. split; [|done]. unfold HF_init.
  rewrite (bind_ok _ _ _ _ _ Himp). unfold dict_pop. rewrite Hcg.
  unfold mbind, M_bind, bind, mret, M_ret, ret. simpl. done.
Qed.

(** An option survives construction exactly when its name, after the
    renaming, is one of [co_varnames[1:]]: an argument of the optimizer's
    [train] other than [self], or one of its local variables. *)
Lemma HF_kwargs_lookup net kw w h cg tr w' (k : string) :
  hf_loadable w = Some h →
  kw !! "cg_set" = Some cg →
  HF_init maxint net kw w = (Ok tr, w') →
  hf_kwargs tr !! k =
    if decide (k ∈ tail (co_varnames h))
    then renamed_options maxint kw !! k
    else None.
Proof.
  intros Hload Hcg Hinit.
  destruct (HF_init_ok net kw w h cg Hload Hcg) as (w'' & Heq & _).
  rewrite Heq in Hinit. injection Hinit as <- _. simpl.
  apply drop_unknown_lookup.
Qed.

(** C7 (as amended). Constructing an HF trainer without the option [cg_set]
    raises [KeyError] for that key, out of the constructor, whenever the
    [hf] module can be loaded, from the import path or from [HF.URL]; when
    it cannot, the failure of the download is what the constructor raises,
    before the options are looked at. *)
Theorem C7_missing_cg_set net kw w :
  kw !! "cg_set" = None →
  (∀ h, hf_loadable w = Some h →
        ∃ w', HF_init maxint net kw w = (Raise (KeyError "cg_set"), w')) ∧
  (hf_loadable w = None →
        ∃ w', HF_init maxint net kw w = (Raise IOError, w')).
Proof.
  intros Hcg. split.
  - intros h Hload. destruct (HF_load_ok w h Hload) as (w' & Himp & _).
    exists w'. unfold HF_init. rewrite (bind_ok _ _ _ _ _ Himp).
    unfold dict_pop. rewrite Hcg. done.
  - intros Hload. destruct (HF_load_fails w Hload) as (w' & Himp & _).
    exists w'. unfold HF_init. by rewrite (bind_raise _ _ _ _ _ Himp).
Qed.

(** *** FORCE *)

(** C9 (as amended). Constructing a FORCE trainer always raises, with the
    world as it found it: no shared variable made, no function compiled.
    What it raises is [TypeError], from [get_value(shared=True)]: whatever
    the network, the options, the pool matrix and its length, the lines
    where [1. / n] is computed and [FLOAT] is named are not reached.
    [FORCE.train] does nothing and returns nothing, whatever it is given. *)
Theorem C9_FORCE_never_constructs (array_len : list F → nat) net kw w :
  FORCE_init array_len net kw w = (Raise TypeError, w) ∧
  ∀ self train_set valid_set w',
    FORCE_train self train_set valid_set w' = (Ok tt, w').
Proof.
  split; [|done]. unfold FORCE_init.
  by destruct (net_weights net) as [[W_in W_pool] W_out].
Qed.

End Properties.

(** * Further properties *)

Section MoreProperties.

Context {F : Type} `{Arith F}.
Variable TTgrad : sexpr F → var → expr F.
Variable npmean : list (list F) → tensor F.
Variable maxint : Z.

Implicit Types (w : world F) (st : gmap var (tensor F)).
Implicit Types (kw : gmap string (pyval F)).
Implicit Types (train_set test_set : dataset F).
Implicit Types (valid_set : option (dataset F)).

(** *** Construction of the SGD trainer *)


(** *** What a training call writes *)

Lemma loop_updates_frame J m lr decay params : ∀ k updates v,
  (∀ p, v = VParam p → p ∉ params) →
  (∀ i, v = VHeading i → ¬ (k ≤ i < k + length params)%nat) →
  loop_updates TTgrad J m lr decay k params updates !! v = updates !! v.
Proof.
  induction params as [|q params IH]; intros k updates v Hp Hh; simpl; [done|].
  rewrite IH.
  - rewrite lookup_insert_ne.
    + rewrite lookup_insert_ne; [done|]. intros <-.
      apply (Hp q eq_refl). apply list_elem_of_here.
    + intros <-. apply (Hh k eq_refl). simpl. lia.
  - intros p Hv Hin. apply (Hp p Hv). by apply list_elem_of_further.
  - intros i Hv Hi. apply (Hh i Hv). simpl. lia.
Qed.

(** X2. A call of the training function of an SGD trainer writes the
    counter, the parameters listed in [network.params] and their headings,
    and nothing else: every other shared variable keeps its value. *)
Theorem SGD_train_call_frame net kw w tr w1 v wa x :
  SGD_init TTgrad maxint net kw w = (Ok tr, w1) →
  ¬ SGD_writes net v →
  shared (call (f_train tr) x wa).2 !! v = shared wa !! v.
Proof.
  intros Hinit Hv.
  apply SGD_init_inv in Hinit
    as (vf & ep & decay & m & lr & _ & _ & _ & _ & _ & -> & _).
  simpl. rewrite apply_updates_lookup, loop_updates_frame.
  - rewrite lookup_singleton_ne; [done|]. intros <-. by apply Hv.
  - intros p -> Hin. by apply Hv.
  - intros i -> Hi. apply Hv. simpl. lia.
Qed.

Lemma built_SGD_call_heading net kw vf ep decay m lr k p wa x :
  net_params net !! k = Some p →
  shared (call (f_train (built_SGD TTgrad net kw vf ep decay m lr)) x wa).2
    !!! VHeading k
  = heading_rule TTgrad (net_J net kw) m lr decay p k (shared wa) x.
Proof.
  intros Hk. simpl. erewrite apply_updates_total;
    [|by apply (loop_updates_heading _ _ _ _ _ _ 0%nat)]. done.
Qed.

Lemma built_SGD_call_param net kw vf ep decay m lr k p wa x :
  net_params net !! k = Some p →
  p ∉ drop (S k) (net_params net) →
  shared (call (f_train (built_SGD TTgrad net kw vf ep decay m lr)) x wa).2
    !!! VParam p
  = param_rule p k (shared wa) x.
Proof.
  intros Hk Hlast. simpl. erewrite apply_updates_total;
    [|by apply (loop_updates_param _ _ _ _ _ _ 0%nat)]. done.
Qed.

(** X3. A training call keeps the shapes: if, on the store it finds, the
    heading of a parameter and the gradient in that parameter have the shape
    of the parameter, then after the call the parameter and its heading still
    have that shape. *)
Theorem SGD_train_call_shapes net kw w tr w1 k p wa x :
  SGD_init TTgrad maxint net kw w = (Ok tr, w1) →
  net_params net !! k = Some p →
  p ∉ drop (S k) (net_params net) →
  length (shared wa !!! VHeading k) = length (shared wa !!! VParam p) →
  length (TTgrad (net_J net kw) (VParam p) (shared wa) x)
  = length (shared wa !!! VParam p) →
  let wb := (call (f_train tr) x wa).2 in
  length (shared wb !!! VParam p) = length (shared wa !!! VParam p) ∧
  length (shared wb !!! VHeading k) = length (shared wa !!! VParam p).
Proof.
  intros Hinit Hk Hlast Hh Hg wb. unfold wb.
  apply SGD_init_inv in Hinit
    as (vf & ep & decay & m & lr & _ & _ & _ & _ & _ & -> & _).
  rewrite (built_SGD_call_param _ _ _ _ _ _ _ _ _ _ _ Hk Hlast).
  rewrite (built_SGD_call_heading _ _ _ _ _ _ _ _ _ _ _ Hk).
  unfold param_rule, heading_rule, tadd, tsub, scale.
  rewrite !length_zip_with, !length_fmap. lia.
Qed.

(** X4. Two training calls in a row, with momentum [m]: the parameter ends
    at [p + h + (m * h - rate * g)], where [p] and [h] are the parameter and
    its heading before the first call, [rate] is the effective rate then and
    [g] is the gradient on the store and minibatch of the first call.  The
    minibatch of the second call has no part in it. *)
Theorem SGD_two_calls net kw w tr w1 decay m lr k p wa x1 x2 :
  SGD_init TTgrad maxint net kw w = (Ok tr, w1) →
  option_num kw "decay" (of_int 1) = Some decay →
  option_num kw "momentum" (of_int 0) = Some m →
  option_num kw "learning_rate" float_0_1 = Some lr →
  net_params net !! k = Some p →
  p ∉ drop (S k) (net_params net) →
  let st := shared wa in
  let wb := (call (f_train tr) x1 wa).2 in
  let wc := (call (f_train tr) x2 wb).2 in
  shared wc !!! VParam p =
    tadd (tadd (st !!! VParam p) (st !!! VHeading k))
         (tsub (scale m (st !!! VHeading k))
               (scale (fmul lr (fpow decay (scalar (st !!! VStep))))
                      (TTgrad (net_J net kw) (VParam p) st x1))).
Proof.
  intros Hinit Hdecay Hm Hlr Hk Hlast st wb wc. unfold wc, wb, st.
  apply SGD_init_inv in Hinit
    as (vf & ep & decay' & m' & lr' & _ & _ & Hd' & Hm' & Hl' & -> & _).
  assert (decay' = decay) as -> by congruence.
  assert (m' = m) as -> by congruence.
  assert (lr' = lr) as -> by congruence.
  rewrite (built_SGD_call_param _ _ _ _ _ _ _ _ _ _ _ Hk Hlast).
  unfold param_rule at 1.
  rewrite (built_SGD_call_param _ _ _ _ _ _ _ _ _ _ _ Hk Hlast).
  rewrite (built_SGD_call_heading _ _ _ _ _ _ _ _ _ _ _ Hk).
  done.
Qed.

(** *** Runs of calls *)

Lemma steps_app (f : compiled F) st (xs ys : dataset F) :
  steps f st (xs ++ ys) = steps f (steps f st xs) ys.
Proof. apply foldl_app. Qed.

Lemma list_comp_call_run (f : compiled F) (xs : dataset F) : ∀ w,
  list_comp (call f) xs w =
    (Ok (step_outputs f (shared w) xs),
     {| shared := steps f (shared w) xs;
        events := events w ++ (ECall (fn_name f) <$> xs);
        hf_local := hf_local w;
        hf_remote := hf_remote w |}).
Proof.
  induction xs as [|x xs IH]; intros w; simpl.
  - rewrite app_nil_r. by destruct w.
  - unfold mbind, M_bind, bind. simpl. rewrite IH. simpl.
    by rewrite <- app_assoc.
Qed.

Lemma call_pure (f : compiled F) x w :
  fn_updates f = ∅ →
  call f x w =
    (Ok ((λ e : sexpr F, e (shared w) x) <$> fn_outputs f),
     emit (ECall (fn_name f) x) w).
Proof.
  intros Hf. unfold call. cbv zeta.
  by rewrite Hf, apply_updates_empty, set_shared_id.
Qed.

Lemma SGD_epoch_eq net kw k ep decay m lr train_set valid_set u wa :
  let tr := built_SGD TTgrad net kw k ep decay m lr in
  let st1 := steps (f_train tr) (shared wa) train_set in
  SGD_epoch npmean tr train_set valid_set u wa =
    (Ok tt,
     {| shared := st1;
        events := events wa ++
          epoch_events train_set valid_set u
            (bool_decide (validates k valid_set u))
            (fmul lr (fpow decay (scalar (st1 !!! VStep))))
            (npmean (step_outputs (f_train tr) (shared wa) train_set))
            (npmean ((λ x, (λ e : sexpr F, e st1 x)
                             <$> (net_J net kw :: net_monitors net))
                       <$> default [] valid_set));
        hf_local := hf_local wa;
        hf_remote := hf_remote wa |}).
Proof.
  intros tr st1. unfold st1. unfold SGD_epoch.
  rewrite (bind_ok _ _ _ _ _ (list_comp_call_run _ train_set wa)).
  set (w2 := {| shared := steps (f_train tr) (shared wa) train_set |}).
  rewrite (bind_ok _ _ _ _ _ (call_pure (f_rate tr) [] w2 eq_refl)).
  erewrite (bind_ok (index0 _)); [|reflexivity].
  rewrite (bind_ok _ _ _ _ _ (SGD_validates_eq _ _ _ _)).
  unfold epoch_events. change (vf tr) with k.
  case_bool_decide as Hgo.
  - rewrite (bind_ok _ _ _ _ _
      (bind_ok _ _ _ _ _ (list_comp_call_pure (f_eval tr) _ _ eq_refl))).
    unfold mret, M_ret, ret, log_event, emit, rate_expr. simpl.
    do 2 f_equal. by rewrite <- !app_assoc.
  - erewrite (bind_ok (mret _)); [|reflexivity].
    unfold log_event, emit, rate_expr. simpl.
    do 2 f_equal. by rewrite <- !app_assoc.
Qed.

(** X5. One epoch of [SGD.train], in full.  The training function is called
    on the items of [train_set] in order, each call on the store the one
    before left; the rate is then read, at the counter as it is after these
    calls; if the epoch validates, the costs of the items of [valid_set] are
    all read on that same store, which they leave as it is; one line is
    logged, with the means of the costs.  The epoch does not raise. *)
Theorem SGD_epoch_run net kw w tr w1 k decay lr train_set valid_set u wa :
  SGD_init TTgrad maxint net kw w = (Ok tr, w1) →
  option_int kw "validate" 3 = Some k →
  option_num kw "decay" (of_int 1) = Some decay →
  option_num kw "learning_rate" float_0_1 = Some lr →
  let st1 := steps (f_train tr) (shared wa) train_set in
  SGD_epoch npmean tr train_set valid_set u wa =
    (Ok tt,
     {| shared := st1;
        events := events wa ++
          epoch_events train_set valid_set u
            (bool_decide (validates k valid_set u))
            (fmul lr (fpow decay (scalar (st1 !!! VStep))))
            (npmean (step_outputs (f_train tr) (shared wa) train_set))
            (npmean ((λ x, (λ e : sexpr F, e st1 x)
                             <$> (net_J net kw :: net_monitors net))
                       <$> default [] valid_set));
        hf_local := hf_local wa;
        hf_remote := hf_remote wa |}).
Proof.
  intros Hinit Hk Hdecay Hlr.
  apply SGD_init_inv in Hinit
    as (vf & ep & decay' & m & lr' & Hk' & _ & Hd' & _ & Hl' & -> & _).
  assert (vf = k) as -> by congruence.
  assert (decay' = decay) as -> by congruence.
  assert (lr' = lr) as -> by congruence.
  apply SGD_epoch_eq.
Qed.

(** *** The store after [SGD.train] *)

Lemma SGD_loop_store net kw vf ep decay m lr train_set valid_set us :
  let tr := built_SGD TTgrad net kw vf ep decay m lr in
  ∀ wa, ∃ wb,
    for_each us (SGD_epoch npmean tr train_set valid_set) wa = (Ok tt, wb) ∧
    shared wb
    = steps (f_train tr) (shared wa)
        (concat (replicate (length us) train_set)) ∧
    hf_local wb = hf_local wa ∧ hf_remote wb = hf_remote wa.
Proof.
  intros tr. induction us as [|u us IH]; intros wa.
  - by exists wa.
  - simpl for_each.
    rewrite (bind_ok _ _ _ _ _
      (SGD_epoch_eq net kw vf ep decay m lr train_set valid_set u wa)).
    edestruct IH as (wb & -> & Hst & Hl & Hr).
    exists wb. split; [done|]. simpl in Hst, Hl, Hr.
    split; [|done]. rewrite Hst. simpl. by rewrite steps_app.
Qed.

(** X6. What [SGD.train] does to the shared variables is what [epochs]
    passes over [train_set] of the training function do, one call per item,
    each on the store the one before left: reading the rate, validating and
    logging change no shared variable.  For [epochs <= 0] or an empty
    [train_set] the store is left as it was. *)
Theorem SGD_train_store net kw w tr w1 ep train_set valid_set wa :
  SGD_init TTgrad maxint net kw w = (Ok tr, w1) →
  option_int kw "epochs" maxint = Some ep →
  - maxint - 1 ≤ ep ≤ maxint →
  ∃ wb,
    SGD_train npmean maxint tr train_set valid_set wa = (Ok tt, wb) ∧
    shared wb
    = steps (f_train tr) (shared wa)
        (concat (replicate (Z.to_nat ep) train_set)) ∧
    (ep ≤ 0 ∨ train_set = [] → shared wb = shared wa).
Proof.
  intros Hinit Hep Hrange.
  apply SGD_init_inv in Hinit
    as (vf & ep' & decay & m & lr & _ & Hep' & _ & _ & _ & -> & _).
  assert (ep' = ep) as -> by congruence.
  destruct (SGD_loop_store net kw vf ep decay m lr train_set valid_set
              (Z.of_nat <$> seq 0 (Z.to_nat ep)) wa)
    as (wb & Hloop & Hst & _).
  rewrite length_fmap, length_seq in Hst.
  exists wb. unfold SGD_train.
  rewrite (bind_ok _ _ _ _ _ (xrange_ok _ _ Hrange wa)).
  split; [done|]. split; [done|]. rewrite Hst.
  intros [Hle| ->].
  - by replace (Z.to_nat ep) with 0%nat by lia.
  - generalize (Z.to_nat ep). intros n. by induction n.
Qed.

Lemma steps_counter net kw vf ep decay m lr (xs : dataset F) : ∀ st n,
  st !!! VStep = [nth_count n] →
  steps (f_train (built_SGD TTgrad net kw vf ep decay m lr)) st xs !!! VStep
  = [nth_count (length xs + n)].
Proof.
  set (f := f_train (built_SGD TTgrad net kw vf ep decay m lr)).
  induction xs as [|x xs IH]; intros st n Hst; [done|].
  change (steps f (apply_updates (fn_updates f) st x) xs !!! VStep
          = [nth_count (S (length xs) + n)]).
  rewrite (IH _ (S n)).
  - by rewrite Nat.add_succ_r.
  - erewrite apply_updates_total;
      [|apply (built_SGD_step_rule TTgrad net kw vf ep decay m lr)].
    unfold step_rule. by rewrite Hst.
Qed.

(** X8. [SGD.train] asked for more epochs than a native integer holds raises
    [OverflowError] at once: nothing is called or logged and no shared
    variable changes.  Asked for no epoch ([epochs <= 0], in range) it
    returns at once, the world as it was. *)
Theorem SGD_train_bounds net kw w tr w1 ep train_set valid_set wa :
  SGD_init TTgrad maxint net kw w = (Ok tr, w1) →
  option_int kw "epochs" maxint = Some ep →
  (¬ (- maxint - 1 ≤ ep ≤ maxint) →
   SGD_train npmean maxint tr train_set valid_set wa
   = (Raise OverflowError, wa)) ∧
  (- maxint - 1 ≤ ep ≤ 0 → 0 ≤ maxint →
   SGD_train npmean maxint tr train_set valid_set wa = (Ok tt, wa)).
Proof.
  intros Hinit Hep.
  apply SGD_init_inv in Hinit
    as (vf & ep' & decay & m & lr & _ & Hep' & _ & _ & _ & -> & _).
  assert (ep' = ep) as -> by congruence.
  split.
  - intros Hout. unfold SGD_train.
    by rewrite (bind_raise _ _ _ _ _ (xrange_overflow _ _ Hout wa)).
  - intros Hle Hmax. unfold SGD_train.
    assert (- maxint - 1 ≤ ep ≤ maxint) as Hrange by lia.
    rewrite (bind_ok _ _ _ _ _ (xrange_ok _ ep Hrange wa)).
    simpl. by replace (Z.to_nat ep) with 0%nat by lia.
Qed.

(** *** HF *)

Lemma HF_init_inv net kw w trh wh :
  HF_init maxint net kw w = (Ok trh, wh) →
  ∃ h cg,
    hf_loadable w = Some h ∧
    kw !! "cg_set" = Some cg ∧
    trh = {| hf_f_eval :=
               theano_function FEval (net_J net kw :: net_monitors net) ∅;
             cg_set := cg;
             opt := h;
             hf_kwargs :=
               drop_unknown (tail (co_varnames h))
                 (renamed_options maxint kw) |}.
Proof.
  intros Hinit.
  destruct (hf_loadable w) as [h|] eqn:Hload.
  - destruct (kw !! "cg_set") as [cg|] eqn:Hcg.
    + destruct (HF_init_ok maxint net kw w h cg Hload Hcg) as (w' & Heq & _).
      rewrite Heq in Hinit. injection Hinit as <- _. by exists h, cg.
    + destruct (HF_load_ok w h Hload) as (w' & Himp & _).
      unfold HF_init in Hinit. rewrite (bind_ok _ _ _ _ _ Himp) in Hinit.
      unfold dict_pop in Hinit. by rewrite Hcg in Hinit.
  - destruct (HF_load_fails w Hload) as (w' & Himp & _).
    unfold HF_init in Hinit. by rewrite (bind_raise _ _ _ _ _ Himp) in Hinit.
Qed.

(** X9. [evaluate(test_set)] on an HF trainer returns the costs of each item
    in order, all read on the store as it is at the call, and changes no
    shared variable: its evaluation function too is compiled without update
    rules. *)
Theorem HF_evaluate_pure net kw w trh wh :
  HF_init maxint net kw w = (Ok trh, wh) →
  ∀ test_set wa,
    evaluate trh test_set wa =
      (Ok ((λ x, (λ e : sexpr F, e (shared wa) x)
                   <$> (net_J net kw :: net_monitors net)) <$> test_set),
       {| shared := shared wa;
          events := events wa ++ (ECall FEval <$> test_set);
          hf_local := hf_local wa;
          hf_remote := hf_remote wa |}).
Proof.
  intros Hinit test_set wa.
  apply HF_init_inv in Hinit as (h & cg & _ & _ & ->).
  unfold evaluate.
  rewrite (list_comp_ext _
    (call (theano_function FEval (net_J net kw :: net_monitors net) ∅)));
    [|done].
  by rewrite list_comp_call_pure.
Qed.

Lemma renamed_options_lookup kw (k : string) :
  renamed_options maxint kw !! k =
    if decide (k = "validation_frequency")
    then Some (default (PInt maxint) (kw !! "validate"))
    else if decide (k = "num_updates")
    then Some (default (PInt maxint) (kw !! "epochs"))
    else if decide (k ∈ ["cg_set"; "epochs"; "validate"])
    then None
    else kw !! k.
Proof.
  unfold renamed_options. cbv zeta.
  destruct (decide (k = "validation_frequency")) as [->|Hvf].
  { rewrite lookup_insert_eq. do 2 f_equal.
    rewrite lookup_insert_ne by done.
    by rewrite !lookup_delete_ne by done. }
  rewrite lookup_insert_ne by done.
  destruct (decide (k = "num_updates")) as [->|Hnu].
  { rewrite lookup_delete_ne by done. rewrite lookup_insert_eq.
    by rewrite lookup_delete_ne by done. }
  destruct (decide (k = "validate")) as [->|Hv].
  { by rewrite lookup_delete_eq. }
  rewrite lookup_delete_ne by done. rewrite lookup_insert_ne by done.
  destruct (decide (k = "epochs")) as [->|He].
  { by rewrite lookup_delete_eq. }
  rewrite lookup_delete_ne by done.
  destruct (decide (k = "cg_set")) as [->|Hc].
  { by rewrite lookup_delete_eq. }
  rewrite lookup_delete_ne by done.
  rewrite decide_False; [done|].
  rewrite !elem_of_cons, elem_of_nil. tauto.
Qed.

(** X10. The options that an HF trainer forwards to the optimizer, exactly.
    A name is forwarded only if it is in [co_varnames[1:]] of the
    optimizer's [train]; then [validation_frequency] carries the value of
    [validate] and [num_updates] that of [epochs] ([sys.maxint] when the
    caller gave none), [cg_set], [epochs] and [validate] are never
    forwarded, and any other name carries the caller's value if there is
    one. *)
Theorem HF_forwarded_options net kw w trh wh (k : string) :
  HF_init maxint net kw w = (Ok trh, wh) →
  hf_kwargs trh !! k =
    if decide (k ∈ tail (co_varnames (opt trh)))
    then if decide (k = "validation_frequency")
         then Some (default (PInt maxint) (kw !! "validate"))
         else if decide (k = "num_updates")
         then Some (default (PInt maxint) (kw !! "epochs"))
         else if decide (k ∈ ["cg_set"; "epochs"; "validate"])
         then None
         else kw !! k
    else None.
Proof.
  intros Hinit. apply HF_init_inv in Hinit as (h & cg & _ & _ & ->).
  simpl. rewrite drop_unknown_lookup. case_decide; [|done].
  apply renamed_options_lookup.
Qed.

(** X11. A [num_updates] or [validation_frequency] given by the caller is
    overwritten: whatever the caller passes under these names, what is
    forwarded under them is the value of [epochs] and of [validate], or
    [sys.maxint]. *)
Theorem HF_caller_updates_overwritten net kw w trh wh :
  HF_init maxint net kw w = (Ok trh, wh) →
  "num_updates" ∈ tail (co_varnames (opt trh)) →
  "validation_frequency" ∈ tail (co_varnames (opt trh)) →
  hf_kwargs trh !! "num_updates"
  = Some (default (PInt maxint) (kw !! "epochs")) ∧
  hf_kwargs trh !! "validation_frequency"
  = Some (default (PInt maxint) (kw !! "validate")).
Proof.
  intros Hinit Hnu Hvf.
  apply HF_init_inv in Hinit as (h & cg & _ & _ & ->). simpl in *.
  rewrite !drop_unknown_lookup, !renamed_options_lookup.
  rewrite !(decide_True _ _ Hnu), !(decide_True _ _ Hvf). done.
Qed.





End MoreProperties.

(** ** The float32 counter

    Adding [1] to a float32 that holds a whole number below [2 ^ 24] gives
    the next whole number, exactly; adding [1] to [2 ^ 24] gives [2 ^ 24]. *)

Section Counting.

Lemma Pos_iter_shl (a n : positive) : Pos.iter xO a n = shl a (Pos.to_nat n).
Proof.
  unfold shl. induction n as [|n IH] using Pos.peano_ind.
  - reflexivity.
  - rewrite Pos.iter_succ, Pos2Nat.inj_succ. simpl. by rewrite <- IH.
Qed.

Lemma iter_pos_nat {A} (f : A → A) (n : positive) : ∀ x,
  SpecFloat.iter_pos f n x = Nat.iter (Pos.to_nat n) f x.
Proof.
  induction n as [n IH|n IH|]; intros x.
  - rewrite Pos2Nat.inj_xI.
    replace (S (2 * Pos.to_nat n))%nat
      with (Pos.to_nat n + (Pos.to_nat n + 1))%nat by lia.
    rewrite !Nat.iter_add. cbn [SpecFloat.iter_pos Nat.iter nat_rect].
    by rewrite !IH.
  - rewrite Pos2Nat.inj_xO.
    replace (2 * Pos.to_nat n)%nat
      with (Pos.to_nat n + Pos.to_nat n)%nat by lia.
    rewrite Nat.iter_add. cbn [SpecFloat.iter_pos]. by rewrite !IH.
  - done.
Qed.

Lemma shl_add (a : positive) (n m : nat) : shl (shl a n) m = shl a (m + n).
Proof. unfold shl. by rewrite Nat.iter_add. Qed.

Lemma shl_plus (a b : positive) (n : nat) :
  (shl a n + shl b n)%positive = shl (a + b) n.
Proof.
  induction n as [|n IH]; [done|].
  change ((xO (shl a n) + xO (shl b n))%positive = xO (shl (a + b) n)).
  by rewrite <- IH.
Qed.

Lemma shl_xO (c : positive) (n : nat) : shl (xO c) n = xO (shl c n).
Proof.
  induction n as [|n IH]; [done|].
  change (xO (shl (xO c) n) = xO (xO (shl c n))). by rewrite IH.
Qed.

Lemma shl_value (a : positive) (n : nat) :
  Zpos (shl a n) = Zpos a * 2 ^ Z.of_nat n.
Proof.
  induction n as [|n IH]; [simpl; lia|].
  change (shl a (S n)) with (xO (shl a n)).
  rewrite Pos2Z.inj_xO, IH, Nat2Z.inj_succ, Z.pow_succ_r by lia. lia.
Qed.

Lemma digits_shl (a : positive) (n : nat) :
  Zpos (digits2_pos (shl a n)) = Zpos (digits2_pos a) + Z.of_nat n.
Proof.
  induction n as [|n IH]; [simpl; lia|].
  change (shl a (S n)) with (xO (shl a n)). cbn [digits2_pos].
  rewrite Pos2Z.inj_succ, IH. lia.
Qed.

Lemma digits_size (q : positive) : digits2_pos q = Pos.size q.
Proof. induction q as [q IH|q IH|]; simpl; by rewrite ?IH. Qed.

Lemma digits_bound (q : positive) :
  Zpos q < 2 ^ 24 → Zpos (digits2_pos q) ≤ 24.
Proof.
  intros Hq. rewrite digits_size.
  destruct (Z_le_gt_dec (Zpos (Pos.size q)) 24) as [|Hgt]; [done|].
  pose proof (Pos.size_le q) as Hle.
  apply Pos2Z.pos_le_pos in Hle. rewrite Pos2Z.inj_pow in Hle.
  assert (2 ^ 25 ≤ 2 ^ Zpos (Pos.size q)) by (apply Z.pow_le_mono_r; lia).
  lia.
Qed.

(** Shifting right the bits that were shifted in loses nothing. *)
Lemma shr_exact (n : nat) : ∀ c : positive,
  Nat.iter n shr_1
    {| shr_m := Zpos (shl c n); shr_r := false; shr_s := false |}
  = {| shr_m := Zpos c; shr_r := false; shr_s := false |}.
Proof.
  induction n as [|n IH]; intros c; [done|].
  rewrite Nat.iter_succ_r.
  change (shl c (S n)) with (xO (shl c n)). rewrite <- shl_xO.
  rewrite shl_xO. simpl shr_1. apply IH.
Qed.

(** Rounding a mantissa of 24 bits followed by [n] zeros is exact. *)
Lemma round_shifted (c : positive) (n : nat) (e : Z) :
  Zpos (digits2_pos c) = 24 → -149 ≤ e → e + Z.of_nat n ≤ 104 →
  binary_round_aux Float32.prec Float32.emax false (Zpos (shl c n)) e loc_Exact
  = S754_finite false c (e + Z.of_nat n).
Proof.
  intros Hc He Hmax.
  unfold binary_round_aux, shr_fexp, Zdigits2, fexp, emin,
    Float32.prec, Float32.emax.
  rewrite digits_shl, Hc.
  replace (Z.max (24 + Z.of_nat n + e - 24) (3 - 128 - 24) - e)
    with (Z.of_nat n) by lia.
  assert (shr (shr_record_of_loc (Zpos (shl c n)) loc_Exact) e (Z.of_nat n)
          = ({| shr_m := Zpos c; shr_r := false; shr_s := false |},
             e + Z.of_nat n)) as ->.
  { destruct n as [|n].
    - simpl. by rewrite Z.add_0_r.
    - change (Z.of_nat (S n)) with (Zpos (Pos.of_succ_nat n)). unfold shr.
      rewrite iter_pos_nat, SuccNat2Pos.id_succ. unfold shr_record_of_loc.
      by rewrite shr_exact. }
  simpl loc_of_shr_record. simpl round_nearest_even. simpl shr_m.
  cbv iota beta. rewrite Hc.
  replace (Z.max (24 + (e + Z.of_nat n) - 24) (3 - 128 - 24)
           - (e + Z.of_nat n)) with 0 by lia.
  simpl. rewrite Zle_imp_le_bool by lia. done.
Qed.

Lemma normalize_shifted (c : positive) (n : nat) (e : Z) :
  Zpos (digits2_pos c) = 24 → -149 ≤ e → e + Z.of_nat n ≤ 104 →
  binary_normalize Float32.prec Float32.emax (Zpos (shl c n)) e false
  = S754_finite false c (e + Z.of_nat n).
Proof.
  intros Hc He Hmax. unfold binary_normalize, binary_round, shl_align.
  replace (fexp Float32.prec Float32.emax
             (Zpos (digits2_pos (shl c n)) + e) - e) with (Z.of_nat n)
    by (unfold fexp, emin, Float32.prec, Float32.emax;
        rewrite digits_shl, Hc; lia).
  destruct n as [|n]; by apply round_shifted.
Qed.

Lemma of_int_canon (q : positive) :
  Zpos (digits2_pos q) ≤ 24 → Float32.of_int (Zpos q) = canon q.
Proof.
  intros Hq.
  unfold Float32.of_int, binary_normalize, binary_round, shl_align, canon.
  replace (fexp Float32.prec Float32.emax (Zpos (digits2_pos q) + 0))
    with (Zpos (digits2_pos q) - 24)
    by (unfold fexp, emin, Float32.prec, Float32.emax; lia).
  rewrite Z.sub_0_r.
  destruct (Zpos (digits2_pos q) - 24) as [|j|j] eqn:Hj; [|lia|].
  - rewrite (round_shifted q 0) by lia.
    replace (Zpos (digits2_pos q)) with 24 by lia. simpl. done.
  - rewrite Pos_iter_shl.
    rewrite (round_shifted (shl q (Pos.to_nat j)) 0)
      by (rewrite ?digits_shl, ?positive_nat_Z; lia).
    f_equal. f_equal. apply Nat2Z.inj. rewrite positive_nat_Z, Z2Nat.id; lia.
Qed.

Lemma add_canon (p : positive) :
  Zpos (digits2_pos (p + 1)) ≤ 24 → Zpos (digits2_pos p) ≤ 24 →
  Float32.add (canon p) (canon 1) = canon (p + 1).
Proof.
  intros Hq Hp.
  change (canon 1) with (S754_finite false (shl 1 23) (-23)).
  unfold Float32.add, SFadd, canon at 1. cbv zeta.
  replace (Z.min (Zpos (digits2_pos p) - 24) (-23)) with (-23) by lia.
  assert (fst (shl_align (shl p (Z.to_nat (24 - Zpos (digits2_pos p))))
                 (Zpos (digits2_pos p) - 24) (-23)) = shl p 23) as ->.
  { unfold shl_align.
    destruct (-23 - (Zpos (digits2_pos p) - 24)) as [|j|j] eqn:Hj; [|lia|].
    - cbn [fst]. f_equal. lia.
    - cbn [fst]. rewrite Pos_iter_shl, shl_add. f_equal.
      apply Nat2Z.inj. rewrite Nat2Z.inj_add, positive_nat_Z, Z2Nat.id; lia. }
  change (fst (shl_align (shl 1 23) (-23) (-23))) with (shl 1 23).
  unfold cond_Zopp.
  change (Zpos (shl p 23) + Zpos (shl 1 23))
    with (Zpos (shl p 23 + shl 1 23)).
  rewrite shl_plus.
  set (q := (p + 1)%positive) in *.
  replace (shl q 23)
    with (shl (shl q (Z.to_nat (24 - Zpos (digits2_pos q))))
              (Z.to_nat (Zpos (digits2_pos q) - 1)))
    by (rewrite shl_add; f_equal; lia).
  rewrite normalize_shifted; [|rewrite digits_shl; lia|lia|lia].
  unfold canon. f_equal. lia.
Qed.

(** Below [2 ^ 24] the float32 sum with [1] is the next whole number. *)
Lemma add_one_exact (i : Z) :
  0 ≤ i < 2 ^ 24 →
  Float32.add (Float32.of_int i) (Float32.of_int 1) = Float32.of_int (i + 1).
Proof.
  intros Hi. destruct i as [|p|p]; [done| |lia].
  destruct (Z.eq_dec (Zpos p) (2 ^ 24 - 1)) as [Htop|Hne].
  { injection Htop as ->. vm_compute. done. }
  change (Zpos p + 1) with (Zpos (p + 1)).
  assert (Zpos (digits2_pos p) ≤ 24) as Hp by (apply digits_bound; lia).
  assert (Zpos (digits2_pos (p + 1)) ≤ 24) as Hq by (apply digits_bound; lia).
  rewrite (of_int_canon p Hp), (of_int_canon (p + 1) Hq).
  change (Float32.of_int 1) with (canon 1). by apply add_canon.
Qed.

(** At [2 ^ 24] it is [2 ^ 24] again: [2 ^ 24 + 1] lies halfway between two
    float32 numbers and rounds to the even one. *)
Lemma add_one_sticks :
  Float32.add (Float32.of_int (2 ^ 24)) (Float32.of_int 1)
  = Float32.of_int (2 ^ 24).
Proof. vm_compute. done. Qed.

(** A whole number up to [2 ^ 24] is a float32, and is read back from it. *)
Lemma whole_of_int (i : Z) :
  0 ≤ i ≤ 2 ^ 24 → Float32.whole (Float32.of_int i) = Some (Z.to_N i).
Proof.
  intros Hi. destruct i as [|p|p]; [done| |lia].
  destruct (Z.eq_dec (Zpos p) (2 ^ 24)) as [Htop|Hne].
  { injection Htop as ->. vm_compute. done. }
  assert (Zpos (digits2_pos p) ≤ 24) as Hp by (apply digits_bound; lia).
  rewrite (of_int_canon p Hp). unfold canon, Float32.whole.
  destruct (Zpos (digits2_pos p) - 24) as [|j|j] eqn:Hj; [|lia|].
  - replace (24 - Zpos (digits2_pos p)) with 0 by lia. done.
  - replace (24 - Zpos (digits2_pos p)) with (Zpos j) by lia.
    rewrite shl_value, Z2Nat.id by lia.
    rewrite Z.mod_mul, Z.div_mul by lia. done.
Qed.

Lemma of_int_inj (i j : Z) :
  0 ≤ i ≤ 2 ^ 24 → 0 ≤ j ≤ 2 ^ 24 →
  Float32.of_int i = Float32.of_int j → i = j.
Proof.
  intros Hi Hj Heq.
  assert (Some (Z.to_N i) = Some (Z.to_N j)) as [= Hij]
    by (by rewrite <- !whole_of_int, Heq).
  lia.
Qed.

End Counting.

(** ** The counter of SGD

    The other tensors may be of any dtype; of the arithmetic it is only
    asked that the counter starts as the float32 [0] and that adding [1] to a
    float32 counter is the float32 sum, as it is in [float32_arith]. *)

Section Float32Counter.

Context {H : Arith spec_float}.
Variable TTgrad : sexpr spec_float → var → expr spec_float.
Variable npmean : list (list spec_float) → tensor spec_float.
Variable maxint : Z.

Hypothesis counter_start : of_int 0 = Float32.of_int 0.
Hypothesis counter_step : ∀ i, 0 ≤ i ≤ counter_max →
  fadd (Float32.of_int i) (of_int 1)
  = Float32.add (Float32.of_int i) (Float32.of_int 1).

Lemma counter_after_range n : 0 ≤ counter_after n ≤ counter_max.
Proof. unfold counter_after, counter_max. lia. Qed.

Lemma counter_after_below n :
  Z.of_nat n < counter_max → counter_after n = Z.of_nat n.
Proof. unfold counter_after, counter_max. lia. Qed.

Lemma counter_after_above n :
  counter_max ≤ Z.of_nat n → counter_after n = counter_max.
Proof. unfold counter_after, counter_max. lia. Qed.

Lemma nth_count_float32 n : nth_count n = Float32.of_int (counter_after n).
Proof.
  induction n as [|n IH]; [exact counter_start|].
  change (nth_count (S n)) with (fadd (nth_count n) (of_int 1)).
  rewrite IH, counter_step by apply counter_after_range.
  destruct (Z_lt_le_dec (Z.of_nat n) counter_max) as [Hlt|Hge].
  - rewrite (counter_after_below n Hlt).
    rewrite add_one_exact by (unfold counter_max in Hlt; lia).
    f_equal. unfold counter_after, counter_max in *. lia.
  - rewrite (counter_after_above n Hge), (counter_after_above (S n)) by lia.
    exact add_one_sticks.
Qed.

Lemma float32_counter_after_calls net kw vf ep decay m lr n w1 w2 :
  sgd_calls (built_SGD TTgrad net kw vf ep decay m lr) n w1 w2 →
  shared w1 !!! VStep = [Float32.of_int 0] →
  shared w2 !!! VStep = [Float32.of_int (counter_after n)].
Proof.
  intros Hcalls Hzero. rewrite <- nth_count_float32.
  eapply sgd_calls_counter; [done|]. by rewrite counter_start.
Qed.

Lemma SGD_init_counter net kw w tr w1 :
  SGD_init TTgrad maxint net kw w = (Ok tr, w1) →
  shared w1 !!! VStep = [Float32.of_int 0].
Proof.
  intros Hinit.
  apply SGD_init_inv in Hinit as (? & ? & ? & ? & ? & _ & _ & _ & _ & _ & _ & ->).
  simpl. rewrite lookup_total_alt, loop_store_step, lookup_insert_eq.
  simpl. by rewrite counter_start.
Qed.

(** C3 (as amended). The counter [t] is a float32.  It is [0] after
    construction, and after [n] calls of the training function, whatever
    calls of the evaluation and rate functions come in between, it holds the
    number [min n (2 ^ 24)]: a call made after fewer than [2 ^ 24] calls
    takes it from [n] to [n + 1], a call made later leaves it as it is, at
    [2 ^ 24].  The rate function returns learning_rate * decay ** t at the
    value the counter holds. *)
Theorem C3_float32_counter net kw w tr w1 decay lr n w2 :
  SGD_init TTgrad maxint net kw w = (Ok tr, w1) →
  option_num kw "decay" (of_int 1) = Some decay →
  option_num kw "learning_rate" float_0_1 = Some lr →
  sgd_calls tr n w1 w2 →
  let t := Float32.of_int (counter_after n) in
  shared w1 !!! VStep = [Float32.of_int 0] ∧
  shared w2 !!! VStep = [t] ∧
  Float32.whole t = Some (Z.to_N (Z.min (Z.of_nat n) (2 ^ 24))) ∧
  (∀ x, let w3 := (call (f_train tr) x w2).2 in
     (Z.of_nat n < 2 ^ 24 →
      shared w2 !!! VStep = [Float32.of_int (Z.of_nat n)] ∧
      shared w3 !!! VStep = [Float32.of_int (Z.of_nat n + 1)]) ∧
     (2 ^ 24 ≤ Z.of_nat n →
      shared w2 !!! VStep = [Float32.of_int (2 ^ 24)] ∧
      shared w3 !!! VStep = [Float32.of_int (2 ^ 24)])) ∧
  (call (f_rate tr) [] w2).1 = Ok [fmul lr (fpow decay t)].
Proof.
  intros Hinit Hdecay Hlr Hcalls t.
  pose proof (SGD_init_counter _ _ _ _ _ Hinit) as Hzero.
  apply SGD_init_inv in Hinit
    as (vf & ep & decay' & m & lr' & _ & _ & Hd' & _ & Hl' & -> & _).
  assert (decay' = decay) as -> by congruence.
  assert (lr' = lr) as -> by congruence.
  pose proof (float32_counter_after_calls _ _ _ _ _ _ _ _ _ _ Hcalls Hzero)
    as Ht.
  assert (∀ x, shared (call (f_train (built_SGD TTgrad net kw vf ep decay m lr))
                         x w2).2 !!! VStep
               = [Float32.of_int (counter_after (S n))]) as Hnext.
  { intros x. eapply float32_counter_after_calls; [|exact Hzero].
    by apply calls_train. }
  split; [done|]. split; [done|]. split.
  { unfold t. rewrite whole_of_int by apply counter_after_range. done. }
  split.
  - intros x w3. unfold w3. rewrite Hnext, Ht. split.
    + intros Hlt.
      split; do 2 f_equal; unfold counter_after, counter_max; lia.
    + intros Hge.
      split; do 2 f_equal; unfold counter_after, counter_max; lia.
  - simpl. unfold rate_expr. by rewrite Ht.
Qed.

(** X7. [SGD.train] advances the float32 counter by [epochs * |train_set|],
    up to [2 ^ 24]: started where the counter holds the number [n0], it
    returns with the counter at [min (n0 + epochs * |train_set|) (2 ^ 24)],
    and the rate function then returns learning_rate * decay ** t for that
    [t]. *)
Theorem SGD_train_float32_counter
    net kw w tr w1 ep decay lr train_set valid_set wa n0 :
  SGD_init TTgrad maxint net kw w = (Ok tr, w1) →
  option_int kw "epochs" maxint = Some ep →
  option_num kw "decay" (of_int 1) = Some decay →
  option_num kw "learning_rate" float_0_1 = Some lr →
  - maxint - 1 ≤ ep ≤ maxint →
  0 ≤ n0 ≤ 2 ^ 24 →
  shared wa !!! VStep = [Float32.of_int n0] →
  let total :=
    Z.min (n0 + Z.of_nat (Z.to_nat ep * length train_set)) (2 ^ 24) in
  ∃ wb,
    SGD_train npmean maxint tr train_set valid_set wa = (Ok tt, wb) ∧
    shared wb !!! VStep = [Float32.of_int total] ∧
    (call (f_rate tr) [] wb).1
    = Ok [fmul lr (fpow decay (Float32.of_int total))].
Proof.
  intros Hinit Hep Hdecay Hlr Hrange Hn0 Hwa total.
  apply SGD_init_inv in Hinit
    as (vf & ep' & decay' & m & lr' & _ & Hep' & Hd' & _ & Hl' & -> & _).
  assert (ep' = ep) as -> by congruence.
  assert (decay' = decay) as -> by congruence.
  assert (lr' = lr) as -> by congruence.
  destruct (SGD_loop_store TTgrad npmean net kw vf ep decay m lr train_set
              valid_set (Z.of_nat <$> seq 0 (Z.to_nat ep)) wa)
    as (wb & Hloop & Hst & _).
  rewrite length_fmap, length_seq in Hst.
  assert (shared wb !!! VStep = [Float32.of_int total]) as Ht.
  { rewrite Hst.
    rewrite (steps_counter _ _ _ _ _ _ _ _ _ _ (Z.to_nat n0)).
    - rewrite nth_count_float32. do 2 f_equal.
      assert (length (concat (replicate (Z.to_nat ep) train_set))
              = (Z.to_nat ep * length train_set)%nat) as ->.
      { generalize (Z.to_nat ep). intros j. induction j as [|j IH]; [done|].
        simpl. rewrite length_app, IH. lia. }
      unfold total, counter_after, counter_max. lia.
    - rewrite nth_count_float32, Hwa. do 2 f_equal.
      unfold counter_after, counter_max. lia. }
  exists wb. unfold SGD_train.
  rewrite (bind_ok _ _ _ _ _ (xrange_ok _ _ Hrange wa)).
  split; [done|]. split; [done|].
  simpl. unfold rate_expr. by rewrite Ht.
Qed.

End Float32Counter.
(** * The example network, run *)

Module Checks.
Import Example.

Lemma SGD_init_example : SGD_init grad maxint net opts w0 = (Ok tr, w1).
Proof. reflexivity. Qed.

Lemma C1_witness :
  let st := shared w1 in
  let st' := shared (call (f_train tr) [] w1).2 in
  st' !!! VHeading 0%nat =
    tsub (scale (of_int 0) (st !!! VHeading 0%nat))
         (scale (fmul (q 1 10) (fpow (of_int 1) (scalar (st !!! VStep))))
                (grad J (VParam 0%nat) st [])) ∧
  (0%nat ∉ drop 1 [0%nat] →
   st' !!! VParam 0%nat = tadd (st !!! VParam 0%nat) (st !!! VHeading 0%nat)).
Proof.
  apply (C1_sgd_update_pair grad maxint net opts w0 tr w1
           (of_int 1) (of_int 0) (q 1 10) 0%nat 0%nat);
    reflexivity.
Defined.

Lemma C5_witness :
  fn_updates (f_eval tr) = ∅ ∧
  ∀ test_set wa,
    evaluate (H0 := SGD_trainer mean maxint) tr test_set wa =
      (Ok ((λ x, (λ e : sexpr Qc, e (shared wa) x) <$> [J]) <$> test_set),
       {| shared := shared wa;
          events := events wa ++ (ECall FEval <$> test_set);
          hf_local := hf_local wa;
          hf_remote := hf_remote wa |}).
Proof.
  apply (C5_evaluate_pure grad mean maxint net opts w0 tr w1). reflexivity.
Defined.

Lemma maxint_range (n : Z) :
  -2 ^ 63 ≤ n ≤ 2 ^ 63 - 1 → - maxint - 1 ≤ n ≤ maxint.
Proof. unfold maxint. lia. Qed.

Lemma C4_witness :
  ∃ wb new,
    SGD_train mean maxint tr batches (Some batches) w1 = (Ok tt, wb) ∧
    events wb = events w1 ++ new ∧
    (∀ u, u ∈ validated_epochs new ↔
          0 ≤ u < 2 ∧ is_Some (Some batches) ∧ 3 > 0 ∧ u `mod` 3 = 0) ∧
    count_calls FEval new
      = (length (validated_epochs new) * length batches)%nat ∧
    (3 = 0 → validated_epochs new = [] ∧ count_calls FEval new = 0%nat).
Proof.
  apply (C4_validation_epochs grad mean maxint net opts w0 tr w1 3 2
           batches (Some batches) w1);
    [reflexivity | reflexivity | reflexivity | apply maxint_range; lia].
Defined.

Lemma C8_witness :
  (opts !! "epochs" = None → 2 = maxint) ∧
  ∃ wb new,
    SGD_train mean maxint tr batches None w1 = (Ok tt, wb) ∧
    events wb = events w1 ++ new ∧
    logged_epochs new = Z.of_nat <$> seq 0 (Z.to_nat 2) ∧
    count_calls FTrain new = (Z.to_nat 2 * length batches)%nat.
Proof.
  apply (C8_epochs_and_training_calls grad mean maxint net opts w0 tr w1 2
           batches None w1);
    [reflexivity | reflexivity | apply maxint_range; lia].
Defined.

Lemma C10_witness :
  ∃ new,
    events (SGD_train mean maxint tr_off batches (Some batches) w1).2
    = events w1 ++ new ∧
    count_calls FEval new = 0%nat ∧
    validated_epochs new = [].
Proof.
  apply (C10_nonpositive_validate_never_validates grad mean maxint net
           opts_off w0 tr_off w1 0 batches (Some batches) w1
           (SGD_train mean maxint tr_off batches (Some batches) w1).1);
    [reflexivity | reflexivity | lia | reflexivity].
Defined.

(** The rationals meet the laws of exact arithmetic. *)







Lemma C7_witness :
  (∀ h, hf_loadable w_hf = Some h →
        ∃ w', HF_init maxint net opts_no_cg w_hf
              = (Raise (KeyError "cg_set"), w')) ∧
  (hf_loadable w_hf = None →
        ∃ w', HF_init maxint net opts_no_cg w_hf = (Raise IOError, w')).
Proof.
  apply (C7_missing_cg_set maxint net opts_no_cg w_hf). reflexivity.
Defined.



(** C7, the claim as it was stated, fails where the [hf] module is neither
    on the import path nor to be fetched: the constructor, given no
    [cg_set], raises the error of the download, not a [KeyError]. *)
Lemma C7_counterexample :
  opts_no_cg !! "cg_set" = None ∧
  hf_local w0 = None ∧ hf_remote w0 = None ∧
  (HF_init maxint net opts_no_cg w0).1 = Raise IOError ∧
  (HF_init maxint net opts_no_cg w0).1 ≠ Raise (KeyError "cg_set").
Proof. repeat split; try reflexivity. intros [=]. Qed.

(** C8, the claim as it was stated, fails for the default: with no option
    [epochs] the loop is bounded.  [SGD.train] returns after exactly
    [sys.maxint] epochs, [2^63 - 1] here. *)
Lemma C8_counterexample :
  SGD_init grad maxint net ∅ w0 = (Ok tr_default, w1) ∧
  ∃ wb new,
    SGD_train mean maxint tr_default batches None w1 = (Ok tt, wb) ∧
    events wb = events w1 ++ new ∧
    length (logged_epochs new) = Z.to_nat (2 ^ 63 - 1).
Proof.
  split; [reflexivity|].
  assert (- maxint - 1 ≤ epochs tr_default ≤ maxint) as Hrange
    by (change (epochs tr_default) with maxint; unfold maxint; lia).
  destruct (SGD_train_trace mean maxint tr_default batches None w1
              (built_SGD_compiled _ _ _ _ _ _ _ _) Hrange)
    as (wb & new & Htrain & Hev & _ & _ & Hlog & _).
  exists wb, new. split; [exact Htrain|]. split; [exact Hev|].
  rewrite Hlog, length_fmap, length_seq. reflexivity.
Qed.

(** C9, the claim as it was stated, fails for every pool matrix, here one
    with a row ([w0] with the pool set to [[1]]): the constructor of FORCE
    raises [TypeError] at the call of [get_value], not a [NameError], and no
    undefined name is reached. *)
Lemma C9_counterexample :
  let w := set_shared (<[VParam 2%nat := [q 1 1]]> (shared w0)) w0 in
  shared w !!! (net_weights net).1.2 = [q 1 1] ∧
  FORCE_init (length (A := Qc)) net ∅ w = (Raise TypeError, w) ∧
  (∀ name, (FORCE_init (length (A := Qc)) net ∅ w).1 ≠ Raise (NameError name)).
Proof. repeat split; try reflexivity. intros name [=]. Qed.

(** C6, where the code departs from it.  [HF(net, cg_set=batches, mu=0.5,
    momentum=0.9, u=1)] is constructed without raising; [epochs] and
    [validate] come out as [num_updates] and [validation_frequency];
    [momentum], which the optimizer's [train] does not know, is dropped; but
    [u], which is no argument of [train], is kept and forwarded, because
    [co_varnames] also lists the local variables of [train]. *)
Lemma C6_local_name_is_forwarded :
  ∃ trh wh,
    HF_init maxint net opts_hf w_hf = (Ok trh, wh) ∧
    hf_kwargs trh !! "num_updates" = Some (PInt maxint) ∧
    hf_kwargs trh !! "validation_frequency" = Some (PInt maxint) ∧
    hf_kwargs trh !! "mu" = Some (PFloat (q 1 2)) ∧
    hf_kwargs trh !! "momentum" = None ∧
    ("u" ∉ train_argnames hf_code) ∧
    hf_kwargs trh !! "u" = Some (PInt 1) ∧
    events (HF_train trh batches None wh).2
    = events wh ++ [EOptTrain batches (PData batches) None (hf_kwargs trh)].
Proof.
  destruct (HF_init_ok maxint net opts_hf w_hf hf_code (PData batches)
              eq_refl eq_refl) as (wh & Hinit & _).
  eexists _, wh. split; [exact Hinit|]. simpl.
  rewrite !drop_unknown_lookup.
  repeat split; try reflexivity.
  intros Hin. repeat (apply elem_of_cons in Hin as [[=]|Hin]).
  by apply elem_of_nil in Hin.
Qed.

End Checks.

(** * The further properties, on the example *)

Module MoreChecks.
Import Example ExampleMore.


Lemma SGD_train_call_frame_witness :
  shared (call (f_train tr) [] w1).2 !! VParam 2%nat
  = shared w1 !! VParam 2%nat.
Proof.
  apply (SGD_train_call_frame grad maxint net opts w0 tr w1 (VParam 2%nat));
    [reflexivity|].
  simpl. intros Hin. apply list_elem_of_singleton in Hin. discriminate.
Defined.

Lemma SGD_train_call_shapes_witness :
  let wb := (call (f_train tr) [] w1).2 in
  length (shared wb !!! VParam 0%nat) = length (shared w1 !!! VParam 0%nat) ∧
  length (shared wb !!! VHeading 0%nat) = length (shared w1 !!! VParam 0%nat).
Proof.
  apply (SGD_train_call_shapes grad maxint net opts w0 tr w1 0%nat 0%nat);
    [reflexivity | reflexivity | simpl; apply not_elem_of_nil
    | reflexivity | reflexivity].
Defined.

Lemma SGD_two_calls_witness :
  let st := shared w1 in
  let wb := (call (f_train tr) [] w1).2 in
  let wc := (call (f_train tr) [] wb).2 in
  shared wc !!! VParam 0%nat =
    tadd (tadd (st !!! VParam 0%nat) (st !!! VHeading 0%nat))
         (tsub (scale (of_int 0) (st !!! VHeading 0%nat))
               (scale (fmul (q 1 10) (fpow (of_int 1) (scalar (st !!! VStep))))
                      (grad J (VParam 0%nat) st []))).
Proof.
  apply (SGD_two_calls grad maxint net opts w0 tr w1
           (of_int 1) (of_int 0) (q 1 10) 0%nat 0%nat);
    [reflexivity | reflexivity | reflexivity | reflexivity | reflexivity
    | simpl; apply not_elem_of_nil].
Defined.

Lemma SGD_epoch_run_witness :
  let st1 := steps (f_train tr) (shared w1) batches in
  SGD_epoch mean tr batches (Some batches) 0 w1 =
    (Ok tt,
     {| shared := st1;
        events := events w1 ++
          epoch_events batches (Some batches) 0
            (bool_decide (validates 3 (Some batches) 0))
            (fmul (q 1 10) (fpow (of_int 1) (scalar (st1 !!! VStep))))
            (mean (step_outputs (f_train tr) (shared w1) batches))
            (mean ((λ x, (λ e : sexpr Qc, e st1 x) <$> [J]) <$> batches));
        hf_local := hf_local w1;
        hf_remote := hf_remote w1 |}).
Proof.
  apply (SGD_epoch_run grad mean maxint net opts w0 tr w1 3
           (of_int 1) (q 1 10) batches (Some batches) 0 w1);
    reflexivity.
Defined.

Lemma SGD_train_store_witness :
  ∃ wb,
    SGD_train mean maxint tr batches (Some batches) w1 = (Ok tt, wb) ∧
    shared wb
    = steps (f_train tr) (shared w1) (concat (replicate (Z.to_nat 2) batches)) ∧
    (2 ≤ 0 ∨ batches = [] → shared wb = shared w1).
Proof.
  apply (SGD_train_store grad mean maxint net opts w0 tr w1 2
           batches (Some batches) w1);
    [reflexivity | reflexivity | unfold maxint; lia].
Defined.

Lemma SGD_train_bounds_witness :
  (¬ (- maxint - 1 ≤ 0 ≤ maxint) →
   SGD_train mean maxint tr_zero batches None w1 = (Raise OverflowError, w1)) ∧
  (- maxint - 1 ≤ 0 ≤ 0 → 0 ≤ maxint →
   SGD_train mean maxint tr_zero batches None w1 = (Ok tt, w1)).
Proof.
  apply (SGD_train_bounds grad mean maxint net opts_zero w0 tr_zero w1 0
           batches None w1);
    reflexivity.
Defined.

Lemma HF_init_example :
  HF_init maxint net opts_hf w_hf
  = (Ok (hf_built opts_hf (PData batches)), w_hf).
Proof. reflexivity. Qed.

Lemma HF_evaluate_pure_witness :
  evaluate (hf_built opts_hf (PData batches)) batches w_hf =
    (Ok ((λ x, (λ e : sexpr Qc, e (shared w_hf) x) <$> [J]) <$> batches),
     {| shared := shared w_hf;
        events := events w_hf ++ (ECall FEval <$> batches);
        hf_local := hf_local w_hf;
        hf_remote := hf_remote w_hf |}).
Proof.
  apply (HF_evaluate_pure maxint net opts_hf w_hf
           (hf_built opts_hf (PData batches)) w_hf).
  reflexivity.
Defined.

Lemma HF_forwarded_options_witness :
  hf_kwargs (hf_built opts_hf (PData batches)) !! "u" =
    if decide ("u" ∈ tail (co_varnames (opt (hf_built opts_hf (PData batches)))))
    then if decide ("u" = "validation_frequency")
         then Some (default (PInt maxint) (opts_hf !! "validate"))
         else if decide ("u" = "num_updates")
         then Some (default (PInt maxint) (opts_hf !! "epochs"))
         else if decide ("u" ∈ ["cg_set"; "epochs"; "validate"])
         then None
         else opts_hf !! "u"
    else None.
Proof.
  apply (HF_forwarded_options maxint net opts_hf w_hf
           (hf_built opts_hf (PData batches)) w_hf "u").
  reflexivity.
Defined.

Lemma HF_init_updates_example :
  HF_init maxint net opts_updates w_hf
  = (Ok (hf_built opts_updates (PData batches)), w_hf).
Proof. reflexivity. Qed.

Lemma HF_caller_updates_overwritten_witness :
  opts_updates !! "num_updates" = Some (PInt 100) ∧
  hf_kwargs (hf_built opts_updates (PData batches)) !! "num_updates"
  = Some (default (PInt maxint) (opts_updates !! "epochs")) ∧
  hf_kwargs (hf_built opts_updates (PData batches)) !! "validation_frequency"
  = Some (default (PInt maxint) (opts_updates !! "validate")).
Proof.
  split; [reflexivity|].
  apply (HF_caller_updates_overwritten maxint net opts_updates w_hf
           (hf_built opts_updates (PData batches)) w_hf);
    [reflexivity | |];
    simpl; repeat (first [apply list_elem_of_here | apply list_elem_of_further]).
Defined.


End MoreChecks.

(** * The float32 network, run *)

Module Checks32.
Import Example32.

#[local] Existing Instance float32_arith.

Lemma SGD_init_example32 : SGD_init grad maxint net ∅ w0 = (Ok tr, w1).
Proof. reflexivity. Qed.

Lemma after_calls_are_calls n : sgd_calls tr n w1 (after_calls n).
Proof.
  induction n as [|n IH]; [apply calls_none|].
  apply (calls_train tr n w1 (after_calls n) [] IH).
Qed.

Lemma after_calls_S n :
  (call (f_train tr) [] (after_calls n)).2 = after_calls (S n).
Proof. reflexivity. Qed.

Lemma counter_calls_value : Z.of_nat counter_calls = counter_max.
Proof. unfold counter_calls. apply Z2Nat.id. unfold counter_max. lia. Qed.

Lemma after_calls_counter n :
  shared (after_calls n) !!! VStep = [f32 (counter_after n)].
Proof.
  apply (float32_counter_after_calls (H := float32_arith) grad eq_refl (λ i _, eq_refl)
           net ∅ 3 maxint (f32 1) (f32 0) float_0_1 n w1);
    [apply after_calls_are_calls|reflexivity].
Qed.

Lemma C3_witness :
  let w2 := after_calls 2 in
  let t := Float32.of_int (counter_after 2) in
  shared w1 !!! VStep = [Float32.of_int 0] ∧
  shared w2 !!! VStep = [t] ∧
  Float32.whole t = Some (Z.to_N (Z.min (Z.of_nat 2) (2 ^ 24))) ∧
  (∀ x, let w3 := (call (f_train tr) x w2).2 in
     (Z.of_nat 2 < 2 ^ 24 →
      shared w2 !!! VStep = [Float32.of_int (Z.of_nat 2)] ∧
      shared w3 !!! VStep = [Float32.of_int (Z.of_nat 2 + 1)]) ∧
     (2 ^ 24 ≤ Z.of_nat 2 →
      shared w2 !!! VStep = [Float32.of_int (2 ^ 24)] ∧
      shared w3 !!! VStep = [Float32.of_int (2 ^ 24)])) ∧
  (call (f_rate tr) [] w2).1 = Ok [fmul float_0_1 (fpow (f32 1) t)].
Proof.
  apply (C3_float32_counter (H := float32_arith) grad maxint eq_refl (λ i _, eq_refl)
           net ∅ w0 tr w1 (f32 1) float_0_1 2%nat);
    [reflexivity | reflexivity | reflexivity |].
  apply calls_train, calls_train, calls_none.
Defined.

(** C3, the claim as it was stated, fails at the call number [2 ^ 24 + 1] of
    the training function, which a trainer with the default [epochs] gets
    to: the counter holds [2 ^ 24] before it and [2 ^ 24] after it, and
    after [2 ^ 24 + 2] calls still [2 ^ 24], although [2 ^ 24 + 2] is a
    float32 too.  The rate function then returns
    learning_rate * decay ** (2 ^ 24). *)
Lemma C3_counterexample :
  let before := after_calls counter_calls in
  let after := (call (f_train tr) [] before).2 in
  let later := (call (f_train tr) [] after).2 in
  sgd_calls tr (S (S counter_calls)) w1 later ∧
  Z.of_nat (S (S counter_calls)) = 2 ^ 24 + 2 ∧
  shared before !!! VStep = [f32 (2 ^ 24)] ∧
  shared after !!! VStep = [f32 (2 ^ 24)] ∧
  shared later !!! VStep = [f32 (2 ^ 24)] ∧
  Float32.whole (f32 (2 ^ 24)) = Some (2 ^ 24)%N ∧
  Float32.whole (f32 (2 ^ 24 + 2)) = Some (2 ^ 24 + 2)%N ∧
  (call (f_rate tr) [] later).1
  = Ok [fmul float_0_1 (fpow (f32 1) (f32 (2 ^ 24)))].
Proof.
  cbv zeta. rewrite !after_calls_S.
  pose proof counter_calls_value as Hcalls.
  assert (∀ n, counter_max ≤ Z.of_nat n →
               shared (after_calls n) !!! VStep = [f32 (2 ^ 24)]) as Hmax.
  { intros n Hn. rewrite after_calls_counter.
    exact (f_equal (λ c, [f32 c]) (counter_after_above n Hn)). }
  assert (shared (after_calls (S (S counter_calls))) !!! VStep
          = [f32 (2 ^ 24)]) as Hcount
    by (apply Hmax; rewrite !Nat2Z.inj_succ, Hcalls; lia).
  split; [apply after_calls_are_calls|].
  split; [rewrite !Nat2Z.inj_succ, Hcalls; unfold counter_max; lia|].
  split; [apply Hmax; rewrite Hcalls; lia|].
  split; [apply Hmax; rewrite !Nat2Z.inj_succ, Hcalls; lia|].
  split; [exact Hcount|].
  split; [by vm_compute|]. split; [by vm_compute|].
  revert Hcount. generalize (after_calls (S (S counter_calls))).
  intros later Hcount.
  unfold call, tr, built_SGD, f_rate, theano_function, fn_outputs.
  cbn [fst fmap list_fmap]. unfold rate_expr. by rewrite Hcount.
Qed.

Lemma SGD_train_float32_counter_witness :
  let total := Z.min (0 + Z.of_nat (Z.to_nat 1 * length batches)) (2 ^ 24) in
  ∃ wb,
    SGD_train mean maxint tr_one batches None w1 = (Ok tt, wb) ∧
    shared wb !!! VStep = [Float32.of_int total] ∧
    (call (f_rate tr_one) [] wb).1
    = Ok [fmul float_0_1 (fpow (f32 1) (Float32.of_int total))].
Proof.
  apply (SGD_train_float32_counter (H := float32_arith) grad mean maxint eq_refl (λ i _, eq_refl)
           net opts_one w0 tr_one w1 1 (f32 1) float_0_1 batches None w1 0);
    [reflexivity | reflexivity | reflexivity | reflexivity
    | unfold maxint; lia | lia | reflexivity].
Defined.

End Checks32.
